(** * typesafe-csv: CsvSerializer over nested objects

    A shallow embedding of [src/index.ts] (class [CsvSerializer], methods
    [import] and [export]) together with the collaborators it composes:
    the path utilities [dlv] and [dset], the validation engine (zod's
    [object], [array], [optional], [decode], [encode]) and the CSV
    tokenizer and writer (papaparse's [parse] and [unparse]).

    JavaScript values are trees: primitives at the leaves, objects as
    finite maps from property names to values.  Strings are byte strings, a
    text being held in its UTF-8 encoding; numbers are the integral ones.
    Only own data properties are modelled:
    members inherited from a prototype ([toString], the [length] of a
    string, ...) are outside the model, so key-path segments are taken to
    name own properties. *)

From Stdlib Require Import ZArith Ascii String DecimalString.
From stdpp Require Import gmap strings list fin_maps.

Set Warnings "-register-all".
Local Open Scope string_scope.

(** ** Strings *)

Module JsString.

(** White space as recognised by [String.prototype.trim]: the [WhiteSpace]
    and [LineTerminator] characters of ECMAScript, each in its UTF-8
    encoding.  Those of one byte: TAB, LF, VT, FF, CR and SP. *)
Definition one_byte_space (a : ascii) : bool :=
  let x := N_of_ascii a in
  ((9 <=? x) && (x <=? 13) || (x =? 32))%N.

(** The one of two bytes: U+00A0. *)
Definition two_byte_space (a b : ascii) : bool :=
  ((N_of_ascii a =? 194) && (N_of_ascii b =? 160))%N.

(** Those of three bytes: U+1680, U+2000 to U+200A, U+2028, U+2029, U+202F,
    U+205F, U+3000 and U+FEFF. *)
Definition three_byte_space (a b c : ascii) : bool :=
  let x := N_of_ascii a in
  let y := N_of_ascii b in
  let z := N_of_ascii c in
  ((x =? 225) && (y =? 154) && (z =? 128)
   || (x =? 226) && (y =? 128)
      && ((128 <=? z) && (z <=? 138) || (z =? 168) || (z =? 169) || (z =? 175))
   || (x =? 226) && (y =? 129) && (z =? 159)
   || (x =? 227) && (y =? 128) && (z =? 128)
   || (x =? 239) && (y =? 187) && (z =? 191))%N.

(** The same on bytes met last to first. *)
Definition space2 (reversed : bool) (a b : ascii) : bool :=
  if reversed then two_byte_space b a else two_byte_space a b.

Definition space3 (reversed : bool) (a b c : ascii) : bool :=
  if reversed then three_byte_space c b a else three_byte_space a b c.

(** The text once the white space at its start is dropped; with [reversed],
    on a text given last byte first. *)
Fixpoint skip_spaces (reversed : bool) (s : string) : string :=
  match s with
  | String a s1 =>
      if one_byte_space a then skip_spaces reversed s1
      else
        match s1 with
        | String b s2 =>
            if space2 reversed a b then skip_spaces reversed s2
            else
              match s2 with
              | String c s3 =>
                  if space3 reversed a b c then skip_spaces reversed s3 else s
              | EmptyString => s
              end
        | EmptyString => s
        end
  | EmptyString => EmptyString
  end.

(** [s.trimStart()] *)
Definition trim_start (s : string) : string := skip_spaces false s.

(** [s.trimEnd()] *)
Definition trim_end (s : string) : string :=
  String.rev (skip_spaces true (String.rev s)).

(** [s.trim()] *)
Definition trim (s : string) : string := trim_end (trim_start s).

(** Nothing but white space: [s.trim() === ''] *)
Definition all_whitespace (s : string) : bool :=
  String.eqb (trim_start s) "".

(** [s.split(d)] for a one-character separator [d]: never empty. *)
Fixpoint split (d : ascii) (s : string) : list string :=
  match s with
  | EmptyString => [EmptyString]
  | String c s' =>
      if Ascii.eqb c d then EmptyString :: split d s'
      else match split d s' with
           | w :: ws => String c w :: ws
           | [] => [String c EmptyString]
           end
  end.

(** [l.join(sep)] on strings. *)
Definition join (sep : string) (l : list string) : string :=
  String.concat sep l.

(** [s.indexOf(t) > -1] *)
Fixpoint includes (t s : string) : bool :=
  String.prefix t s ||
  match s with
  | String _ s' => includes t s'
  | EmptyString => false
  end.

(** [s.split(sep)[0]] for a non-empty separator [sep]. *)
Fixpoint first_segment (sep s : string) : string :=
  if String.prefix sep s then EmptyString
  else match s with
       | String c s' => String c (first_segment sep s')
       | EmptyString => EmptyString
       end.

(** No occurrence of [sep] begins within [line] when [sep] follows it. *)
Fixpoint unbroken (sep line : string) : bool :=
  match line with
  | String _ line' => negb (String.prefix sep (line ++ sep)) && unbroken sep line'
  | EmptyString => true
  end.

Definition starts_with_space (s : string) : bool :=
  match s with
  | String c _ => Ascii.eqb c " "
  | EmptyString => false
  end.

Definition ends_with_space (s : string) : bool :=
  starts_with_space (String.rev s).

(** [s.replace(new RegExp(escape(t), 'g'), r)] for a non-empty [t];
    [skip] counts the characters of a match still to be dropped. *)
Fixpoint replace_from (skip : nat) (t r s : string) : string :=
  match s with
  | String c s' =>
      match skip with
      | S n => replace_from n t r s'
      | O =>
          if String.prefix t s then r ++ replace_from (String.length t - 1) t r s'
          else String c (replace_from O t r s')
      end
  | EmptyString => EmptyString
  end.

Definition replace_all (t r s : string) : string := replace_from O t r s.

Definition is_digit (c : ascii) : bool :=
  let n := nat_of_ascii c in (48 <=? n)%nat && (n <=? 57)%nat.

Fixpoint skip_digits (s : string) : string :=
  match s with
  | String c s' => if is_digit c then skip_digits s' else s
  | EmptyString => EmptyString
  end.

Definition starts_with_digit (s : string) : bool :=
  match s with
  | String c _ => is_digit c
  | EmptyString => false
  end.

Definition skip_sign (s : string) : string :=
  match s with
  | String "+" s' | String "-" s' => s'
  | _ => s
  end.

(** The exponent part of a decimal literal, possibly absent. *)
Definition exponent_ok (s : string) : bool :=
  match s with
  | EmptyString => true
  | String "e" s' | String "E" s' =>
      let d := skip_sign s' in
      starts_with_digit d && String.eqb (skip_digits d) EmptyString
  | _ => false
  end.

(** [StrUnsignedDecimalLiteral] other than [Infinity]:
    digits, optional fraction, optional exponent. *)
Definition decimal_literal (s : string) : bool :=
  if starts_with_digit s then
    match skip_digits s with
    | String "." s' => exponent_ok (skip_digits s')
    | s' => exponent_ok s'
    end
  else
    match s with
    | String "." s' => starts_with_digit s' && exponent_ok (skip_digits s')
    | _ => false
    end.

Definition is_hex_digit (c : ascii) : bool :=
  let n := nat_of_ascii c in
  is_digit c || ((65 <=? n)%nat && (n <=? 70)%nat)
             || ((97 <=? n)%nat && (n <=? 102)%nat).

Fixpoint all_chars (p : ascii -> bool) (s : string) : bool :=
  match s with
  | String c s' => p c && all_chars p s'
  | EmptyString => true
  end.

Definition radix_literal (s : string) : bool :=
  match s with
  | String "0" (String x (String c s')) =>
      let body := String c s' in
      if Ascii.eqb x "x" || Ascii.eqb x "X" then all_chars is_hex_digit body
      else if Ascii.eqb x "o" || Ascii.eqb x "O" then
        all_chars (fun d => is_digit d && negb (Ascii.eqb d "8") && negb (Ascii.eqb d "9")) body
      else if Ascii.eqb x "b" || Ascii.eqb x "B" then
        all_chars (fun d => Ascii.eqb d "0" || Ascii.eqb d "1") body
      else false
  | _ => false
  end.

(** [s * 0 === 0]: the string converts to a finite number.  Literals whose
    magnitude exceeds the range of a double are not told apart. *)
Definition numeric (s : string) : bool :=
  let t := trim s in
  String.eqb t EmptyString || radix_literal t || decimal_literal (skip_sign t).

(** [String(n)] for an integral number. *)
Definition of_Z (n : Z) : string :=
  NilZero.string_of_int (Z.to_int n).

End JsString.

(** ** Values *)

Inductive prim :=
| PUndef
| PNull
| PBool (b : bool)
| PNum (n : Z)
| PStr (s : string).

Inductive obj_class := Plain | Array.

Inductive value :=
| VPrim (p : prim)
| VObj (c : obj_class) (props : gmap string value).

Coercion VPrim : prim >-> value.

Abbreviation VUndef := (VPrim PUndef).
Abbreviation VNull := (VPrim PNull).
Abbreviation VStr s := (VPrim (PStr s)).
Abbreviation VNum n := (VPrim (PNum n)).
Abbreviation VBool b := (VPrim (PBool b)).

Definition empty_object : value := VObj Plain ∅.
Definition empty_array : value := VObj Array ∅.

(** Object literal from a list of entries, later entries winning. *)
Definition object_of (entries : list (string * value)) : value :=
  VObj Plain (list_to_map (reverse entries)).

(** [v === undefined] *)
Definition is_undefined (v : value) : bool :=
  match v with VPrim PUndef => true | _ => false end.

(** [v == null]: the values that [??] replaces. *)
Definition prim_nullish (p : prim) : bool :=
  match p with PUndef | PNull => true | _ => false end.

(** [typeof v === 'object'] *)
Definition typeof_object (v : value) : bool :=
  match v with
  | VObj _ _ | VPrim PNull => true
  | _ => false
  end.

(** [ToBoolean] *)
Definition truthy (v : value) : bool :=
  match v with
  | VPrim PUndef | VPrim PNull => false
  | VPrim (PBool b) => b
  | VPrim (PNum n) => negb (n =? 0)%Z
  | VPrim (PStr s) => negb (String.eqb s EmptyString)
  | VObj _ _ => true
  end.

(** [a ?? b] on primitives. *)
Definition coalesce (a b : prim) : prim :=
  if prim_nullish a then b else a.

(** ** Errors and results *)

(** A path segment locating an issue: a property name or an array index. *)
Inductive path_seg :=
| Key (k : string)
| Index (i : nat).

(** One validation issue of the validation engine. *)
Record issue := Issue {
  issue_path : list path_seg;
  issue_message : string
}.

(** One structural error of the tokenizer ([Papa.ParseError]). *)
Record ParseError := {
  err_type : string;
  err_code : string;
  err_message : string;
  err_row : option nat
}.

(** [Papa.ParseMeta] *)
Record ParseMeta := {
  meta_delimiter : string;
  meta_linebreak : string;
  meta_aborted : bool;
  meta_truncated : bool;
  meta_fields : option (list string)
}.

Inductive exn :=
| AggregateError (errors : list ParseError) (meta : ParseMeta)
| ZodError (issues : list issue)
| TypeError (message : string).

Inductive result (A : Type) :=
| Ok (a : A)
| Throw (e : exn).

Arguments Ok {A} a.
Arguments Throw {A} e.

(** Sequencing of computations that may throw, written [x ← r; k]. *)
#[global] Instance result_ret : MRet result := fun A a => Ok a.
#[global] Instance result_bind : MBind result := fun A B f r =>
  match r with
  | Ok a => f a
  | Throw e => Throw e
  end.

(** [l.map(f)] for a callback that may throw: stops at the first throw. *)
Fixpoint map_result {A B} (f : A -> result B) (l : list A) : result (list B) :=
  match l with
  | [] => Ok []
  | a :: l' => b ← f a; bs ← map_result f l'; Ok (b :: bs)
  end.

(** ** Path utilities: dlv and dset

    The packages dlv and dset are collaborators of the library, not part of
    its sources: this section models them, property reads and writes on
    objects included. *)

(** [obj[k]]: reading a property throws on [undefined] and [null]. *)
Definition js_get (obj : value) (k : string) : result value :=
  match obj with
  | VObj _ props => Ok (default VUndef (props !! k))
  | VPrim PUndef | VPrim PNull =>
      Throw (TypeError "Cannot read properties of undefined or null")
  | VPrim _ => Ok VUndef
  end.

(** The loop of [dlv]: [obj = obj ? obj[key[p]] : undef]. *)
Fixpoint dlv_loop (obj : value) (key : list string) : result value :=
  match key with
  | [] => Ok obj
  | k :: key' =>
      obj' ← (if truthy obj then js_get obj k else Ok VUndef);
      dlv_loop obj' key'
  end.

(** Modelled from the spec: the path utility [get(object, dotPath)] (package
    dlv) is not part of the sources.  [dlv(obj, key)] splits the key on dots,
    walks the segments and short-circuits to [undefined] on a falsy
    intermediate; the default [def] is [undefined]. *)
Definition dlv (obj : value) (key : string) : result value :=
  obj' ← dlv_loop obj (JsString.split "." key);
  Ok (if is_undefined obj' then VUndef else obj').

(** The segments on which [dset] stops. *)
Definition reserved_key (k : string) : bool :=
  String.eqb k "__proto__" || String.eqb k "constructor" || String.eqb k "prototype".

(** The loop of [dset], from the cursor [t] on the keys that remain:
    [t = t[k] = (i === l) ? val : (typeof (x = t[k]) === typeof keys) ? x
                : (keys[i] * 0 !== 0 || ...) ? {} : []].
    The result is the object at the cursor after the writes below it. *)
Fixpoint dset_loop (t : value) (keys : list string) (val : value) : result value :=
  match keys with
  | [] => Ok t
  | k :: keys' =>
      if reserved_key k then Ok t
      else
        match t with
        | VObj c props =>
            match keys' with
            | [] => Ok (VObj c (<[k := val]> props))
            | k' :: _ =>
                let x := default VUndef (props !! k) in
                let child :=
                  if typeof_object x then x
                  else if JsString.numeric k' then empty_array else empty_object in
                child' ← dset_loop child keys' val;
                Ok (VObj c (<[k := child']> props))
            end
        | VPrim PUndef | VPrim PNull =>
            Throw (TypeError "Cannot read properties of undefined or null")
        | VPrim _ =>
            Throw (TypeError "Cannot create property on a primitive")
        end
  end.

(** Modelled from the spec: the path utility [set(object, dotPath, value)]
    (package dset) is not part of the sources.  [dset(obj, keys, val)] splits
    the key on dots and writes [val] at the path, reusing an intermediate of
    type object and replacing any other by a fresh container.  The object is
    mutated in place; here the updated object is returned. *)
Definition dset (obj : value) (keys : string) (val : value) : result value :=
  dset_loop obj (JsString.split "." keys) val.

(** ** Validation engine: codecs, object and array schemas

    The validation engine (zod) is a collaborator of the library, not part of
    its sources: this section models the part [import] and [export] call,
    a column's type being any pair of runs. *)

(** The payload a schema runs on: a value and the issues found so far;
    a run succeeded when no issue was recorded. *)
Record payload (A : Type) := Payload {
  p_value : A;
  p_issues : list issue
}.

Arguments Payload {A} p_value p_issues.
Arguments p_value {A} p.
Arguments p_issues {A} p.

(** Modelled from the spec: the codec of a column (a zod type) is not part of
    the sources.  A codec is a bidirectional contract: [zt_decode] runs it
    from a raw cell to a typed value, [zt_encode] from a typed value back to
    a cell; either run may record issues.  The runs are those that return:
    a conversion function that throws, whose exception would leave [import]
    or [export] as it is, is outside the model, and no theorem below
    classifies all that these methods may throw. *)
Record ZodType := {
  zt_decode : value -> payload value;
  zt_encode : value -> payload prim
}.

Definition prefix_issues (seg : path_seg) (issues : list issue) : list issue :=
  map (fun i => Issue (seg :: issue_path i) (issue_message i)) issues.

(** [zt.encode(v)]: throws the issues of a failed run. *)
Definition encode (zt : ZodType) (v : value) : result prim :=
  let r := zt_encode zt v in
  match p_issues r with
  | [] => Ok (p_value r)
  | issues => Throw (ZodError issues)
  end.

(** [zt.optional()]: [undefined] passes in both directions without reaching
    the inner type. *)
Definition z_optional (inner : ZodType) : ZodType := {|
  zt_decode v := if is_undefined v then Payload v [] else zt_decode inner v;
  zt_encode v := if is_undefined v then Payload PUndef [] else zt_encode inner v
|}.

(** The shape of an object schema: keys in insertion order, one type each. *)
Definition shape := list (string * ZodType).

Fixpoint shape_set (sh : shape) (k : string) (zt : ZodType) : shape :=
  match sh with
  | [] => [(k, zt)]
  | (k', zt') :: sh' =>
      if String.eqb k' k then (k', zt) :: sh' else (k', zt') :: shape_set sh' k zt
  end.

(** [Object.fromEntries(entries)]: a repeated key keeps its first position
    and its last value.  (Keys that are array indices, which an object lists
    first, are not told apart; the order bears on the order of issues only.) *)
Definition from_entries (entries : list (string * ZodType)) : shape :=
  fold_left (fun sh e => shape_set sh e.1 e.2) entries [].

(** How an object schema records the result of one property. *)
Definition handle_property_result (key : string) (input : gmap string value)
    (r : payload value) (final : payload (gmap string value))
  : payload (gmap string value) :=
  {| p_issues := p_issues final ++ prefix_issues (Key key) (p_issues r);
     p_value :=
       if is_undefined (p_value r) then
         match input !! key with
         | Some _ => <[key := VUndef]> (p_value final)
         | None => p_value final
         end
       else <[key := p_value r]> (p_value final) |}.

(** Modelled from the spec: the validation engine (zod) is not part of the
    sources.  [z.object(shape)] run forward on one row: every key of the
    shape is decoded, in order, whatever the outcome of the others; unknown
    keys of the input are dropped; an input that is no plain object is one
    issue. *)
Definition z_object_run (sh : shape) (input : value) : payload value :=
  match input with
  | VObj Plain props =>
      let final :=
        fold_left
          (fun final e =>
             handle_property_result e.1 props
               (zt_decode e.2 (default VUndef (props !! e.1))) final)
          sh (Payload ∅ []) in
      Payload (VObj Plain (p_value final)) (p_issues final)
  | _ => Payload input [Issue [] "Invalid input: expected object"]
  end.

(** [.array()] run forward on the rows from index [i] on: every element is
    run, its issues located by its index. *)
Fixpoint z_array_run_from (i : nat) (el : value -> payload value)
    (input : list value) : payload (list value) :=
  match input with
  | [] => Payload [] []
  | v :: rest =>
      let r := el v in
      let rs := z_array_run_from (S i) el rest in
      Payload (p_value r :: p_value rs)
              (prefix_issues (Index i) (p_issues r) ++ p_issues rs)
  end.

Definition z_array_run (el : value -> payload value) (input : list value)
  : payload (list value) :=
  z_array_run_from 0 el input.

(** [z.object(shape).array().decode(data)] *)
Definition z_decode_rows (sh : shape) (data : list value) : result (list value) :=
  let r := z_array_run (z_object_run sh) data in
  match p_issues r with
  | [] => Ok (p_value r)
  | issues => Throw (ZodError issues)
  end.

(** ** CSV tokenizer

    The tokenizer (papaparse) is a collaborator of the library, not part of
    its sources: its splitting of the text into rows of cells is a parameter,
    and this section models what it makes of those rows. *)

(** [skipEmptyLines]: [false], [true] or ['greedy']. *)
Inductive skip_mode := SkipNone | SkipEmpty | SkipGreedy.

(** The tokenizer-level settings of a parse configuration. *)
Record TokenizerOptions := {
  tk_delimiter : option string;
  tk_newline : option string;
  tk_quoteChar : option string
}.

(** [Papa.ParseConfig], as far as this library sets or forwards it. *)
Record ParseConfig := {
  header : bool;
  skipEmptyLines : skip_mode;
  transformHeader : option (string -> string);
  transform : option (string -> value);
  tokenizer_options : TokenizerOptions
}.

(** [Partial<Papa.ParseConfig>]: the keys the caller may give. *)
Record PartialParseConfig := {
  given_header : option bool;
  given_skipEmptyLines : option skip_mode;
  given_transformHeader : option (string -> string);
  given_transform : option (string -> value);
  given_tokenizer_options : TokenizerOptions
}.

Definition no_tokenizer_options : TokenizerOptions :=
  {| tk_delimiter := None; tk_newline := None; tk_quoteChar := None |}.

Definition no_parse_options : PartialParseConfig :=
  {| given_header := None; given_skipEmptyLines := None;
     given_transformHeader := None; given_transform := None;
     given_tokenizer_options := no_tokenizer_options |}.

(** What the low-level tokenizer yields: rows of cells, the first row being
    the header row in header mode. *)
Record RawParse := {
  raw_data : list (list string);
  raw_errors : list ParseError;
  raw_meta : ParseMeta
}.

(** [Papa.ParseResult] *)
Record ParseResult := {
  data : list value;
  errors : list ParseError;
  meta : ParseMeta
}.

(** An array literal. *)
Definition array_of (l : list value) : value :=
  VObj Array (list_to_map (imap (fun i v => (JsString.of_Z (Z.of_nat i), v)) l)).

Definition test_empty_line (mode : skip_mode) (row : list string) : bool :=
  match mode with
  | SkipGreedy => String.eqb (JsString.trim (JsString.join "" row)) ""
  | _ => match row with
         | [c] => String.eqb c ""
         | _ => false
         end
  end.

(** The rows left once blank lines are skipped. *)
Definition skip_blank_lines (mode : skip_mode) (rows : list (list string))
  : list (list string) :=
  match mode with
  | SkipNone => rows
  | mode => filter (fun row => test_empty_line mode row = false) rows
  end.

(** The header fields: the first row that yields any, each name passed
    through [transformHeader]. *)
Fixpoint fill_header_fields (th : option (string -> string))
    (rows : list (list string)) : list string :=
  match rows with
  | [] => []
  | row :: rest =>
      match map (fun h => match th with Some f => f h | None => h end) row with
      | [] => fill_header_fields th rest
      | fields => fields
      end
  end.

Definition apply_transform (cfg : ParseConfig) (cell : string) : value :=
  match transform cfg with
  | Some f => f cell
  | None => VStr cell
  end.

(** One data row in header mode: an object keyed by the header fields, the
    cells beyond the fields collected under [__parsed_extra]. *)
Definition process_row (cfg : ParseConfig) (fields : list string)
    (row_source : list string) : value :=
  let cells := map (apply_transform cfg) row_source in
  if header cfg then
    let row :=
      fold_left (fun row fc => <[fc.1 := fc.2]> row) (zip fields cells) ∅ in
    VObj Plain
      (if (length fields <? length cells)%nat
       then <["__parsed_extra" := array_of (drop (length fields) cells)]> row
       else row)
  else array_of cells.

Definition field_mismatch (nfields : nat) (i : nat) (row_source : list string)
  : list ParseError :=
  if (nfields <? length row_source)%nat then
    [{| err_type := "FieldMismatch"; err_code := "TooManyFields";
        err_message := "Too many fields"; err_row := Some i |}]
  else if (length row_source <? nfields)%nat then
    [{| err_type := "FieldMismatch"; err_code := "TooFewFields";
        err_message := "Too few fields"; err_row := Some i |}]
  else [].

Definition with_fields (m : ParseMeta) (fields : list string) : ParseMeta :=
  {| meta_delimiter := meta_delimiter m; meta_linebreak := meta_linebreak m;
     meta_aborted := meta_aborted m; meta_truncated := meta_truncated m;
     meta_fields := Some fields |}.

Section Tokenizer.

(** The low-level tokenizer: splitting the text into rows of cells under the
    delimiter, quoting and line-ending rules, with the structural errors it
    meets.  It is a parameter of the development. *)
Variable tokenize : ParseConfig -> string -> RawParse.

(** Modelled from the spec: the CSV tokenizer (papaparse) is not part of the
    sources.  [Papa.parse(input, cfg)] tokenizes the text, skips blank lines,
    and in header mode takes the first row as header names (through
    [transformHeader]), turns every data row into an object keyed by those
    names (each cell through [transform]) and reports every row whose number
    of cells differs from the number of header names. *)
Definition Papa_parse (input : string) (cfg : ParseConfig) : ParseResult :=
  let raw := tokenize cfg input in
  let rows := skip_blank_lines (skipEmptyLines cfg) (raw_data raw) in
  if header cfg then
    let fields := fill_header_fields (transformHeader cfg) rows in
    let rows := tail rows in
    {| data := map (process_row cfg fields) rows;
       errors := raw_errors raw ++
                 concat (imap (field_mismatch (length fields)) rows);
       meta := with_fields (raw_meta raw) fields |}
  else
    {| data := map (process_row cfg []) rows;
       errors := raw_errors raw;
       meta := raw_meta raw |}.

End Tokenizer.

(** ** CSV writer

    The writer (papaparse) is a collaborator of the library, not part of its
    sources: this section models it on rows given as arrays, [quotes] being
    a boolean and formulae not being escaped. *)

(** [Papa.UnparseConfig], as far as it bears on rows given as arrays. *)
Record UnparseConfig := {
  quotes : option bool;
  quoteChar : option string;
  escapeChar : option string;
  delimiter : option string;
  newline : option string;
  skipEmptyLinesOut : option skip_mode
}.

Definition no_unparse_options : UnparseConfig :=
  {| quotes := None; quoteChar := None; escapeChar := None;
     delimiter := None; newline := None; skipEmptyLinesOut := None |}.

Definition BYTE_ORDER_MARK : string :=
  String (ascii_of_nat 239) (String (ascii_of_nat 187) (String (ascii_of_nat 191) "")).

Definition CR : string := String (ascii_of_nat 13) "".
Definition LF : string := String (ascii_of_nat 10) "".
Definition CRLF : string := CR ++ LF.

Definition QUOTE : string := String (ascii_of_nat 34) "".

Definition BAD_DELIMITERS : list string := [CR; LF; QUOTE; BYTE_ORDER_MARK].

(** The writer's settings once its configuration is unpacked. *)
Record WriterSettings := {
  w_quotes : bool;
  w_quoteChar : string;
  w_escapedQuote : string;
  w_delimiter : string;
  w_newline : string;
  w_skipEmptyLines : skip_mode
}.

Definition unpack_config (config : option UnparseConfig) : WriterSettings :=
  let cfg := default no_unparse_options config in
  let q := default QUOTE (quoteChar cfg) in
  {| w_quotes := default false (quotes cfg);
     w_quoteChar := q;
     w_escapedQuote :=
       match escapeChar cfg with
       | Some e => e ++ q
       | None => q ++ q
       end;
     w_delimiter :=
       match delimiter cfg with
       | Some d =>
           if existsb (fun bad => JsString.includes bad d) BAD_DELIMITERS
           then "," else d
       | None => ","
       end;
     w_newline := default CRLF (newline cfg);
     w_skipEmptyLines := default SkipNone (skipEmptyLinesOut cfg) |}.

(** The text of a cell: empty for [undefined] and [null], [toString()] of
    any other primitive. *)
Definition cell_text (p : prim) : string :=
  match p with
  | PUndef | PNull => ""
  | PBool true => "true"
  | PBool false => "false"
  | PNum n => JsString.of_Z n
  | PStr s => s
  end.

Definition needs_quotes (w : WriterSettings) (escaped : string) : bool :=
  w_quotes w
  || existsb (fun bad => JsString.includes bad escaped) BAD_DELIMITERS
  || JsString.includes (w_delimiter w) escaped
  || JsString.starts_with_space escaped
  || JsString.ends_with_space escaped.

(** One field as written: quoted when its text calls for it. *)
Definition safe (w : WriterSettings) (p : prim) : string :=
  if prim_nullish p then ""
  else
    let escaped := JsString.replace_all (w_quoteChar w) (w_escapedQuote w) (cell_text p) in
    if needs_quotes w escaped then w_quoteChar w ++ escaped ++ w_quoteChar w
    else escaped.

Definition empty_line_out (mode : skip_mode) (row : list prim) : bool :=
  match mode with
  | SkipNone => false
  | SkipEmpty => match row with
                 | [PStr s] => String.eqb s ""
                 | _ => false
                 end
  | SkipGreedy => String.eqb (JsString.trim (JsString.join "" (map cell_text row))) ""
  end.

Definition is_skip (mode : skip_mode) : bool :=
  match mode with SkipNone => false | _ => true end.

(** The rows written one after the other, a line terminator after every row
    but the last. *)
Fixpoint serialize (w : WriterSettings) (rows : list (list prim)) : string :=
  match rows with
  | [] => ""
  | row :: rest =>
      if empty_line_out (w_skipEmptyLines w) row then serialize w rest
      else
        JsString.join (w_delimiter w) (map (safe w) row)
        ++ (if bool_decide (rest ≠ [])
               && (negb (is_skip (w_skipEmptyLines w))
                   || bool_decide (row ≠ []))
            then w_newline w else "")
        ++ serialize w rest
  end.

(** Modelled from the spec: the CSV writer (papaparse) is not part of the
    sources.  [Papa.unparse(rows, config)] on rows given as arrays writes
    every row as its fields joined by the delimiter, rows separated by the
    line terminator; a field is quoted when it holds the delimiter, a quote,
    a line break, or starts or ends with a space.  Cells reaching the writer
    from [export] are never [undefined] or [null]. *)
Definition Papa_unparse (rows : list (list prim)) (config : option UnparseConfig) : string :=
  serialize (unpack_config config) rows.

(** ** The serializer

    [src/index.ts]: the class [CsvSerializer]. *)

(** [MetaEntry]: the triple [header, key-path, type] of one column. *)
Definition MetaEntry : Type := string * string * ZodType.

Record Options := {
  parse : option PartialParseConfig;
  unparse : option UnparseConfig
}.

Definition no_options : Options := {| parse := None; unparse := None |}.

Record CsvSerializer := {
  schema : list MetaEntry;
  opts : Options
}.

(** The [transform] hook of [import]: [(v) => v.trim() || undefined]. *)
Definition trim_or_undefined (v : string) : value :=
  let t := JsString.trim v in
  if truthy (VStr t) then VStr t else VUndef.

(** The configuration [import] hands to the tokenizer: the library's
    settings, overridden by whatever [opts.parse] gives. *)
Definition import_config (o : Options) : ParseConfig :=
  let given := default no_parse_options (parse o) in
  {| header := default true (given_header given);
     skipEmptyLines := default SkipEmpty (given_skipEmptyLines given);
     transformHeader :=
       Some (default JsString.trim (given_transformHeader given));
     transform := Some (default trim_or_undefined (given_transform given));
     tokenizer_options := given_tokenizer_options given |}.

(** [row[hdr]] on a decoded row. *)
Definition row_get (row : value) (hdr : string) : value :=
  match row with
  | VObj _ props => default VUndef (props !! hdr)
  | VPrim _ => VUndef
  end.

(** The callback of [data.map] in [import]: a fresh object, written once per
    column in schema order. *)
Definition build_object (sch : list MetaEntry) (row : value) : result value :=
  foldl (fun acc (e : MetaEntry) => obj ← acc; dset obj e.1.2 (row_get row e.1.1))
        (Ok empty_object) sch.

Section ImportMethod.

Variable tokenize : ParseConfig -> string -> RawParse.

(** [CsvSerializer.import] *)
Definition import (s : CsvSerializer) (csvStr : string) : result (list value) :=
  let papaRes := Papa_parse tokenize csvStr (import_config (opts s)) in
  if (0 <? length (errors papaRes))%nat then
    Throw (AggregateError (errors papaRes) (meta papaRes))
  else
    data ← z_decode_rows (from_entries (map (fun e : MetaEntry => (e.1.1, e.2)) (schema s)))
                         (data papaRes);
    map_result (build_object (schema s)) data.

End ImportMethod.

(** One cell of [export]: [zt.encode(dlv(e, kp)) ?? '']. *)
Definition export_cell (e : value) (col : MetaEntry) : result prim :=
  v ← dlv e col.1.2;
  c ← encode col.2 v;
  Ok (coalesce c (PStr "")).

(** The rows of [export]: [entries.map((e) => this.schema.map(...))]. *)
Definition export_rows (s : CsvSerializer) (entries : list value)
  : result (list (list prim)) :=
  map_result (fun e => map_result (export_cell e) (schema s)) entries.

(** [CsvSerializer.export] *)
Definition export (s : CsvSerializer) (entries : list value) : result string :=
  let hdrRow := map (fun e : MetaEntry => PStr e.1.1) (schema s) in
  rows ← export_rows s entries;
  Ok (Papa_unparse (hdrRow :: rows) (unparse (opts s))).

(** ** A reference tokenizer and sample codecs

    Used to run the serializer on concrete texts: unquoted cells, one
    delimiter character, lines ended by LF or CR LF. *)

Module Reference.

Definition strip_cr (line : string) : string :=
  match String.rev line with
  | String c r => if Ascii.eqb c (ascii_of_nat 13) then String.rev r else line
  | EmptyString => line
  end.

Definition delimiter_char (o : TokenizerOptions) : ascii :=
  match tk_delimiter o with
  | Some (String c _) => c
  | _ => ","%char
  end.

Definition tokenize (cfg : ParseConfig) (input : string) : RawParse :=
  let d := delimiter_char (tokenizer_options cfg) in
  {| raw_data :=
       map (fun line => JsString.split d (strip_cr line))
           (JsString.split (ascii_of_nat 10) input);
     raw_errors := [];
     raw_meta := {| meta_delimiter := String d ""; meta_linebreak := LF;
                    meta_aborted := false; meta_truncated := false;
                    meta_fields := None |} |}.

Definition ok {A} (a : A) : payload A := Payload a [].

Definition invalid {A} (a : A) (message : string) : payload A :=
  Payload a [Issue [] message].

(** [z.string()] *)
Definition z_string : ZodType := {|
  zt_decode v := match v with
                 | VStr _ => ok v
                 | _ => invalid v "Invalid input: expected string"
                 end;
  zt_encode v := match v with
                 | VStr s => ok (PStr s)
                 | _ => invalid PUndef "Invalid input: expected string"
                 end
|}.

Definition digits_only (s : string) : bool :=
  negb (String.eqb s "") && JsString.all_chars JsString.is_digit s.

(** [z.codec(z.string().regex(/^\d+$/), z.number().int(),
             { decode: (s) => Number(s), encode: (n) => String(n) })] *)
Definition z_int : ZodType := {|
  zt_decode v :=
    match v with
    | VStr s =>
        if digits_only s then
          match NilZero.int_of_string s with
          | Some n => ok (VNum (Z.of_int n))
          | None => invalid v "Invalid string: must match pattern"
          end
        else invalid v "Invalid string: must match pattern"
    | _ => invalid v "Invalid input: expected string"
    end;
  zt_encode v :=
    match v with
    | VNum n =>
        if digits_only (JsString.of_Z n) then ok (PStr (JsString.of_Z n))
        else invalid PUndef "Invalid string: must match pattern"
    | _ => invalid PUndef "Invalid input: expected number"
    end
|}.

(** [z.stringbool()], on the two spellings ["true"] and ["false"]. *)
Definition z_stringbool : ZodType := {|
  zt_decode v :=
    match v with
    | VStr s =>
        if String.eqb s "true" then ok (VBool true)
        else if String.eqb s "false" then ok (VBool false)
        else invalid v "Invalid input: expected boolean as string"
    | _ => invalid v "Invalid input: expected string"
    end;
  zt_encode v :=
    match v with
    | VBool true => ok (PStr "true")
    | VBool false => ok (PStr "false")
    | _ => invalid PUndef "Invalid input: expected boolean"
    end
|}.

(** The schema of the scenario: an ID and a nested, optional score. *)
Definition scores : CsvSerializer := {|
  schema := [("ID", "id", z_string);
             ("Score", "meta.scores.primary", z_optional z_int)];
  opts := no_options
|}.

Definition scores_csv : string := "ID,Score" ++ LF ++ "101,95" ++ LF ++ "102,".

Definition scores_records : list value :=
  [object_of [("id", VStr "101");
              ("meta", object_of [("scores", object_of [("primary", VNum 95)])])];
   object_of [("id", VStr "102");
              ("meta", object_of [("scores", object_of [("primary", VUndef)])])]].

(** A data row short of one cell. *)
Definition ragged_csv : string := "ID,Score" ++ LF ++ "101".

(** Two rows whose score is no run of digits. *)
Definition invalid_csv : string :=
  "ID,Score" ++ LF ++ "101,nan" ++ LF ++ "102,9" ++ LF ++ "103,-1".

(** A row with a cell too many, and a score that is no run of digits. *)
Definition ragged_invalid_csv : string := "ID,Score" ++ LF ++ "101,nan,extra".

Definition reference_meta (fields : option (list string)) : ParseMeta :=
  {| meta_delimiter := ","; meta_linebreak := LF;
     meta_aborted := false; meta_truncated := false;
     meta_fields := fields |}.

(** Two columns under one container, as in the README. *)
Definition shared : CsvSerializer := {|
  schema := [("ID", "id", z_string);
             ("Created At", "meta.createdAt", z_optional z_string);
             ("Score", "meta.scores.primary", z_optional z_int)];
  opts := no_options
|}.

Definition shared_csv : string := "ID,Created At,Score" ++ LF ++ "101,2023-01-01,95".

Definition shared_record : value :=
  object_of [("id", VStr "101");
             ("meta", object_of [("createdAt", VStr "2023-01-01");
                                 ("scores", object_of [("primary", VNum 95)])])].

(** A key-path that leads through another. *)
Definition nested : CsvSerializer := {|
  schema := [("X", "a.b", z_string); ("Y", "a.b.c", z_string)];
  opts := no_options
|}.

Definition nested_csv : string := "X,Y" ++ LF ++ "1,2".

(** Two columns with one key-path. *)
Definition doubled : CsvSerializer := {|
  schema := [("A", "x", z_string); ("B", "x", z_string)];
  opts := no_options
|}.

Definition doubled_csv : string := "A,B" ++ LF ++ "1,2".

(** Two columns with one key-path, and a third below it. *)
Definition doubled_below : CsvSerializer := {|
  schema := [("A", "x", z_string); ("B", "x", z_string); ("C", "x.y", z_string)];
  opts := no_options
|}.

Definition doubled_below_csv : string := "A,B,C" ++ LF ++ "1,2,3".

(** Two columns whose values may be falsy. *)
Definition flags : CsvSerializer := {|
  schema := [("Is Admin", "isAdmin", z_optional z_stringbool);
             ("Score", "score", z_optional z_int)];
  opts := no_options
|}.

Definition flags_record : value :=
  object_of [("isAdmin", VBool false); ("score", VNum 0)].

(** A record without the required [id], its [meta] empty. *)
Definition partial_record : value := object_of [("meta", object_of [])].

(** A record without any score. *)
Definition scoreless_record : value :=
  object_of [("id", VStr "300"); ("meta", object_of [])].

(** An optional column whose key-path a later column writes again. *)
Definition shadowed : CsvSerializer := {|
  schema := [("A", "x", z_optional z_string); ("B", "x", z_string)];
  opts := no_options
|}.

Definition shadowed_csv : string := "A,B" ++ LF ++ ",hello".

(** A record whose score is [null]. *)
Definition null_score_record : value :=
  object_of [("id", VStr "1");
             ("meta", object_of [("scores", object_of [("primary", VNull)])])].

(** A score cell of blanks. *)
Definition blank_score_csv : string := "ID,Score" ++ LF ++ "102,   ".

(** A header that holds the delimiter. *)
Definition names : CsvSerializer := {|
  schema := [("Last, First", "name", z_string); ("ID", "id", z_string)];
  opts := no_options
|}.

(** A check mark: [true] is written ["yes"], [false] is left empty.
    [z.codec(z.literal('yes').optional(), z.boolean(),
             { decode: (s) => s === 'yes', encode: (b) => b ? 'yes' : undefined })] *)
Definition z_checkmark : ZodType := {|
  zt_decode v :=
    match v with
    | VUndef => ok (VBool false)
    | VStr s =>
        if String.eqb s "yes" then ok (VBool true)
        else invalid v "Invalid input: expected yes"
    | _ => invalid v "Invalid input: expected yes"
    end;
  zt_encode v :=
    match v with
    | VBool true => ok (PStr "yes")
    | VBool false => ok PUndef
    | _ => invalid PUndef "Invalid input: expected boolean"
    end
|}.

Definition checks : CsvSerializer := {|
  schema := [("Is Admin", "isAdmin", z_checkmark); ("ID", "id", z_string)];
  opts := no_options
|}.

Definition unchecked_record : value :=
  object_of [("isAdmin", VBool false); ("id", VStr "1")].

(** A column five levels down. *)
Definition deep : CsvSerializer := {|
  schema := [("Root", "root", z_string); ("Deep", "a.b.c.d.value", z_string)];
  opts := no_options
|}.

Definition deep_record : value :=
  object_of
    [("root", VStr "root_val");
     ("a", object_of [("b", object_of [("c", object_of [("d",
             object_of [("value", VStr "deep_val")])])])])].

(** Two columns of plain strings, and a record with an empty name. *)
Definition people : CsvSerializer := {|
  schema := [("ID", "id", z_string); ("Name", "name", z_string)];
  opts := no_options
|}.


End Reference.


(** ** Reading paths, as a function *)

(** The own property [k] of [v], [undefined] when there is none. *)
Definition get_own (v : value) (k : string) : value :=
  match v with
  | VObj _ props => default VUndef (props !! k)
  | VPrim _ => VUndef
  end.

(** The value found by walking the segments [keys] down from [v]. *)
Fixpoint lookup_path (v : value) (keys : list string) : value :=
  match keys with
  | [] => v
  | k :: keys' => lookup_path (get_own v k) keys'
  end.

Definition header_of (col : MetaEntry) : string := col.1.1.

(** The segments of a column's key-path. *)
Definition key_path (col : MetaEntry) : list string :=
  JsString.split "." col.1.2.

(** Neither path leads through the other. *)
Definition incomparable (p q : list string) : Prop :=
  ¬ p `prefix_of` q ∧ ¬ q `prefix_of` p.

#[global] Instance incomparable_dec p q : Decision (incomparable p q) :=
  and_dec _ _.

(** No segment is one on which [dset] stops. *)
Definition unreserved (p : list string) : Prop :=
  Forall (fun k => reserved_key k = false) p.

#[global] Instance unreserved_dec p : Decision (unreserved p) :=
  Forall_dec _ p.

(** The container [dset] goes on with below the cursor. *)
Definition next_container (x : value) (k' : string) : value :=
  if typeof_object x then x
  else if JsString.numeric k' then empty_array else empty_object.

(** Paths whose proper prefixes hold no [null] can be written. *)
Definition writable (t : value) (q : list string) : Prop :=
  ∀ r r' : list string, r ≠ [] -> r' ≠ [] -> q = (r ++ r')%list -> lookup_path t r ≠ VNull.

(** The writes of [build_object] from an object already begun. *)
Definition write_columns (row : value) (acc : result value) (sch : list MetaEntry)
  : result value :=
  foldl (fun acc (e : MetaEntry) => obj ← acc; dset obj e.1.2 (row_get row e.1.1))
        acc sch.

(** [opts.parse] leaves the settings of [import] in force: header mode,
    blank-line skipping and the two trimming hooks. *)
Definition library_hooks (o : Options) : Prop :=
  let given := default no_parse_options (parse o) in
  given_header given = None ∧ given_skipEmptyLines given = None ∧
  given_transformHeader given = None ∧ given_transform given = None.

(** A type that lets "no value" through in both directions. *)
Definition optional_type (zt : ZodType) : Prop :=
  zt_decode zt VUndef = Payload VUndef [] ∧
  zt_encode zt VUndef = Payload PUndef [].

(** The type an object shape holds for a key. *)
Fixpoint shape_get (sh : shape) (k : string) : option ZodType :=
  match sh with
  | [] => None
  | (k', zt) :: sh' => if String.eqb k' k then Some zt else shape_get sh' k
  end.

(** The shape [import] validates rows against. *)
Definition import_shape (s : CsvSerializer) : shape :=
  from_entries (map (fun e : MetaEntry => (e.1.1, e.2)) (schema s)).

(** The issues of one cell: those of the key's type on the row's value. *)
Definition cell_issues (sh : shape) (row : value) (k : string) : list issue :=
  match shape_get sh k with
  | Some zt => p_issues (zt_decode zt (get_own row k))
  | None => []
  end.

(** The issues of one row: every key of the shape in turn, each issue
    located by the key. *)
Definition row_issues (sh : shape) (row : value) : list issue :=
  flat_map (fun e : string * ZodType =>
              prefix_issues (Key e.1) (p_issues (zt_decode e.2 (get_own row e.1))))
           sh.

(** The issues of all rows: every row in turn, each issue located by the
    index of the row. *)
Definition validation_issues (sh : shape) (rows : list value) : list issue :=
  concat (imap (fun i row => prefix_issues (Index i) (row_issues sh row)) rows).

Definition plain_object (v : value) : Prop :=
  ∃ props, v = VObj Plain props.

(** The loop of an object schema over the keys of its shape. *)
Definition object_loop (props : gmap string value) (sh : shape)
    (final : payload (gmap string value)) : payload (gmap string value) :=
  fold_left
    (fun final (e : string * ZodType) =>
       handle_property_result e.1 props
         (zt_decode e.2 (default VUndef (props !! e.1))) final)
    sh final.

(** An issue located at row [i], column [k]. *)
Definition located (i : nat) (k : string) (iss : issue) : Prop :=
  ∃ rest, issue_path iss = Index i :: Key k :: rest.

(** The settings [export] writes with. *)
Definition writer_settings (s : CsvSerializer) : WriterSettings :=
  unpack_config (unparse (opts s)).

(** The header row of [export]. *)
Definition header_row (s : CsvSerializer) : list prim :=
  map (fun e : MetaEntry => PStr e.1.1) (schema s).

(** The header row as the writer writes it: every header as a field, the
    fields joined by the delimiter. *)
Definition header_line (s : CsvSerializer) : string :=
  JsString.join (w_delimiter (writer_settings s))
    (map (safe (writer_settings s)) (header_row s)).

(** The value at a column's key-path survives its cell: the cell [export]
    writes for it, read back by [import] (trimmed, an empty text meaning
    absent), decodes to the value again. *)
Definition cell_faithful (e : value) (col : MetaEntry) : Prop :=
  ∃ cell,
    export_cell e col = Ok cell
    ∧ zt_decode col.2 (trim_or_undefined (cell_text cell))
      = Payload (lookup_path e (key_path col)) [].


(** ** Reads on a store of objects

    Objects live in a store and are reached through references, as the
    records handed to [export] are; a computation takes the store and
    returns it with its outcome. *)

Module Heap.

Definition loc := positive.

Inductive hval :=
| HPrim (p : prim)
| HRef (l : loc).

Record hobj := HObj {
  h_class : obj_class;
  h_props : gmap string hval
}.

Definition heap := gmap loc hobj.

Definition heapM (A : Type) : Type := heap -> result A * heap.

Definition ret {A} (a : A) : heapM A := fun h => (Ok a, h).

Definition bind {A B} (m : heapM A) (f : A -> heapM B) : heapM B :=
  fun h =>
    match m h with
    | (Ok a, h') => f a h'
    | (Throw e, h') => (Throw e, h')
    end.

Definition h_truthy (v : hval) : bool :=
  match v with
  | HPrim p => truthy (VPrim p)
  | HRef _ => true
  end.

(** [obj[k]]: a read; the store is handed on as it came. *)
Definition read_prop (obj : hval) (k : string) : heapM hval :=
  fun h =>
    match obj with
    | HRef l =>
        match h !! l with
        | Some o => (Ok (default (HPrim PUndef) (h_props o !! k)), h)
        | None => (Throw (TypeError "dangling reference"), h)
        end
    | HPrim PUndef | HPrim PNull =>
        (Throw (TypeError "Cannot read properties of undefined or null"), h)
    | HPrim _ => (Ok (HPrim PUndef), h)
    end.

(** The loop of [dlv] on the store. *)
Fixpoint dlv_loop (obj : hval) (key : list string) : heapM hval :=
  match key with
  | [] => ret obj
  | k :: key' =>
      bind (if h_truthy obj then read_prop obj k else ret (HPrim PUndef))
           (fun obj' => dlv_loop obj' key')
  end.

(** [dlv(obj, key)] on the store. *)
Definition dlv (obj : hval) (key : string) : heapM hval :=
  bind (dlv_loop obj (JsString.split "." key))
       (fun obj' => ret (match obj' with HPrim PUndef => HPrim PUndef | _ => obj' end)).

(** The tree a stored value stands for. *)
Inductive represents (h : heap) : hval -> value -> Prop :=
| represents_prim p : represents h (HPrim p) (VPrim p)
| represents_obj l c hprops props :
    h !! l = Some (HObj c hprops) ->
    (∀ k, option_Forall2 (represents h) (hprops !! k) (props !! k)) ->
    represents h (HRef l) (VObj c props).

(** A store with the record [{ meta: {} }] at location 1. *)
Definition sample : heap :=
  <[1%positive := HObj Plain (<["meta" := HRef 2%positive]> ∅)]>
    (<[2%positive := HObj Plain ∅]> ∅).

End Heap.

(** ** Further notions for the properties of [import] and [export] *)

(** One row as the writer writes it. *)
Definition written_line (w : WriterSettings) (row : list prim) : string :=
  JsString.join (w_delimiter w) (map (safe w) row).

(** The text starts with a white-space character; with [reversed], a text
    given last byte first ends with one. *)
Definition leading_space (reversed : bool) (s : string) : bool :=
  match s with
  | String a s1 =>
      JsString.one_byte_space a
      || match s1 with
         | String b s2 =>
             JsString.space2 reversed a b
             || match s2 with
                | String c _ => JsString.space3 reversed a b c
                | EmptyString => false
                end
         | EmptyString => false
         end
  | EmptyString => false
  end.

(** A shape with the type at key [h] replaced by [zt]. *)
Definition retype (h : string) (zt : ZodType) (sh : shape) : shape :=
  map (fun e : string * ZodType => if decide (e.1 = h) then (e.1, zt) else e) sh.

(** A column with another type. *)
Definition with_type (col : MetaEntry) (zt : ZodType) : MetaEntry :=
  (col.1.1, col.1.2, zt).

Module Cases.

(** U+00A0, a white space of two bytes. *)
Definition NBSP : string :=
  String (ascii_of_N 194) (String (ascii_of_N 160) "").

(** U+2003, a white space of three bytes. *)
Definition EM_SPACE : string :=
  String (ascii_of_N 226) (String (ascii_of_N 128) (String (ascii_of_N 131) "")).

(** A type that decodes an absent cell to [null]:
    [z.codec(z.string().optional(), z.string().nullable(),
             { decode: (s) => s ?? null, encode: (v) => v ?? undefined })] *)
Definition z_nullable : ZodType := {|
  zt_decode v :=
    match v with
    | VUndef => Reference.ok VNull
    | VStr _ => Reference.ok v
    | _ => Reference.invalid v "Invalid input: expected string"
    end;
  zt_encode v :=
    match v with
    | VNull => Reference.ok PUndef
    | VStr s => Reference.ok (PStr s)
    | _ => Reference.invalid PUndef "Invalid input: expected string"
    end
|}.

(** A column that may hold [null], and a column below it. *)
Definition below_null : CsvSerializer := {|
  schema := [("A", "a", z_nullable); ("B", "a.b", Reference.z_string)];
  opts := no_options
|}.

Definition below_null_csv : string := "A,B" ++ LF ++ ",x".

(** One header on two columns, the earlier with a type of its own. *)
Definition twice : CsvSerializer := {|
  schema := [("N", "first", Reference.z_int); ("N", "second", Reference.z_string)];
  opts := no_options
|}.

Definition twice_csv : string := "N,M" ++ LF ++ "abc,1".

(** A schema whose second header the text lacks. *)
Definition lacking_csv : string := "ID,Other" ++ LF ++ "101,95".

(** A required column whose header is padded. *)
Definition padded : CsvSerializer := {|
  schema := [(" ID", "id", Reference.z_string); ("Score", "score", Reference.z_string)];
  opts := no_options
|}.

Definition padded_csv : string := " ID,Score" ++ LF ++ "101,95".

(** No column at all. *)
Definition bare : CsvSerializer := {| schema := []; opts := no_options |}.

(** A record with more than the schema names. *)
Definition wider_record : value :=
  object_of [("id", VStr "101"); ("note", VStr "unused");
             ("meta", object_of [("scores", object_of [("primary", VNum 95);
                                                       ("secondary", VNum 1)])])].

Definition narrow_record : value :=
  object_of [("id", VStr "101");
             ("meta", object_of [("scores", object_of [("primary", VNum 95)])])].

(** A text with a column the schema does not name. *)
Definition wider_csv : string := "ID,Extra,Score" ++ LF ++ "101,zzz,95".

(** A score cell of white space, one a character of two bytes. *)
Definition nbsp_score_csv : string :=
  "ID,Score" ++ LF ++ "102, " ++ NBSP ++ " ".

(** A header line followed by blank lines. *)
Definition blank_csv : string := "ID,Score" ++ LF ++ "" ++ LF ++ "".

(** Header mode turned off by the caller. *)
Definition headerless : CsvSerializer := {|
  schema := [("ID", "id", Reference.z_string)];
  opts := {| parse := Some {| given_header := Some false;
                              given_skipEmptyLines := None;
                              given_transformHeader := None;
                              given_transform := None;
                              given_tokenizer_options := no_tokenizer_options |};
             unparse := None |}
|}.

Definition headerless_csv : string := "101" ++ LF ++ "102".

End Cases.

(** The one issue of a row that is no plain object. *)
Definition not_an_object (i : nat) : issue :=
  Issue [Index i] "Invalid input: expected object".

(** The cell [export] writes for a column of a record whose value the
    column's type encodes. *)
Definition encoded_cell (e : value) (col : MetaEntry) : prim :=
  coalesce (p_value (zt_encode col.2 (lookup_path e (key_path col)))) (PStr "").

(** The issues a column's type finds in a record when encoding. *)
Definition encode_issues (e : value) (col : MetaEntry) : list issue :=
  p_issues (zt_encode col.2 (lookup_path e (key_path col))).

(** * Properties *)

Example scenario_import :
  import Reference.tokenize Reference.scores Reference.scores_csv
  = Ok Reference.scores_records.
Proof. vm_compute. reflexivity. Qed.

Example scenario_export :
  export Reference.scores Reference.scores_records
  = Ok ("ID,Score" ++ CRLF ++ "101,95" ++ CRLF ++ "102,").
Proof. vm_compute. reflexivity. Qed.

Example deep_import :
  import Reference.tokenize Reference.deep ("Root,Deep" ++ LF ++ "root_val,deep_val")
  = Ok [Reference.deep_record].
Proof. vm_compute. reflexivity. Qed.

Example deep_export :
  export Reference.deep [Reference.deep_record]
  = Ok ("Root,Deep" ++ CRLF ++ "root_val,deep_val").
Proof. vm_compute. reflexivity. Qed.

Example partial_export :
  export Reference.scores [Reference.scoreless_record]
  = Ok ("ID,Score" ++ CRLF ++ "300,").
Proof. vm_compute. reflexivity. Qed.

Example malformed_import :
  import Reference.tokenize Reference.scores ("ID,Score" ++ LF ++ "103,nan")
  = Throw (ZodError [Issue [Index 0; Key "Score"] "Invalid string: must match pattern"]).
Proof. vm_compute. reflexivity. Qed.

(** White space of more than one byte is trimmed as that of one; a byte of
    such a character inside another character is not. *)
Example unicode_white_space :
  JsString.trim (Cases.NBSP ++ " x" ++ Cases.EM_SPACE ++ LF) = "x"
  ∧ trim_or_undefined (Cases.NBSP ++ BYTE_ORDER_MARK) = VUndef
  ∧ JsString.all_whitespace (" " ++ Cases.NBSP) = true
  ∧ JsString.trim (String (ascii_of_N 195) (String (ascii_of_N 160) ""))
    = String (ascii_of_N 195) (String (ascii_of_N 160) "").
Proof. repeat split; vm_compute; reflexivity. Qed.

(** A value with white space at an end does not survive its cell: the cell
    is read back trimmed. *)
Example padded_value_not_faithful :
  ¬ cell_faithful (object_of [("id", VStr (Cases.NBSP ++ "x"))])
      ("ID", "id", Reference.z_string).
Proof.
  intros (cell & Hcell & Hback). vm_compute in Hcell. injection Hcell as <-.
  vm_compute in Hback. discriminate Hback.
Qed.

(** ** Results *)

Lemma bind_Ok {A B} (r : result A) (f : A -> result B) b :
  r ≫= f = Ok b ↔ ∃ a, r = Ok a ∧ f a = Ok b.
Proof.
  destruct r as [a|e]; simpl; split.
  - eauto.
  - by intros (a' & [= ->] & ?).
  - done.
  - by intros (? & ? & ?).
Qed.

Lemma map_result_Ok {A B} (f : A -> result B) l bs :
  map_result f l = Ok bs ↔ Forall2 (fun a b => f a = Ok b) l bs.
Proof.
  revert bs. induction l as [|a l IH]; intros bs; simpl.
  - split; [intros [= <-]; constructor | by inversion 1].
  - split.
    + intros (b & Hb & (bs' & Hbs & [= <-])%bind_Ok)%bind_Ok.
      constructor; [done | by apply IH].
    + inversion 1 as [|? b ? bs' Hb Hbs]; subst.
      apply bind_Ok. exists b. split; [done|].
      apply bind_Ok. exists bs'. split; [by apply IH | done].
Qed.

Lemma map_result_total {A B} (f : A -> result B) (g : A -> B) l :
  Forall (fun a => f a = Ok (g a)) l -> map_result f l = Ok (map g l).
Proof.
  induction 1 as [|a l Ha _ IH]; simpl; [done|].
  by rewrite Ha, IH.
Qed.

(** ** Reading a path *)

Lemma get_own_falsy v k : truthy v = false -> get_own v k = VUndef.
Proof. by destruct v as [[]|]. Qed.

Lemma read_step v k :
  (if truthy v then js_get v k else Ok VUndef) = Ok (get_own v k).
Proof. by destruct v as [[| |[]|n|s]|c m]; simpl; try destruct (_ =? _)%Z; try destruct (String.eqb _ _). Qed.

Lemma dlv_loop_lookup obj key : dlv_loop obj key = Ok (lookup_path obj key).
Proof.
  revert obj. induction key as [|k key IH]; intros obj; simpl; [done|].
  rewrite read_step. simpl. apply IH.
Qed.

(** [dlv] always returns: the walk never reads a property of [undefined] or
    [null]. *)
Lemma dlv_lookup obj kp : dlv obj kp = Ok (lookup_path obj (JsString.split "." kp)).
Proof.
  unfold dlv. rewrite dlv_loop_lookup. simpl.
  by destruct (lookup_path _ _) as [[]|].
Qed.

Lemma lookup_path_app v p q :
  lookup_path v (p ++ q)%list = lookup_path (lookup_path v p) q.
Proof. revert v. induction p as [|k p IH]; intros v; simpl; [done | apply IH]. Qed.

Lemma lookup_path_prim (p : prim) keys : keys ≠ [] -> lookup_path p keys = VUndef.
Proof.
  destruct keys as [|k keys]; [done|]. intros _. simpl.
  induction keys as [|k' keys IH]; simpl; done.
Qed.

Lemma lookup_path_undef keys : lookup_path VUndef keys = VUndef.
Proof. destruct keys; [done | by apply lookup_path_prim]. Qed.

Lemma lookup_path_empty c keys : keys ≠ [] -> lookup_path (VObj c ∅) keys = VUndef.
Proof.
  destruct keys as [|k keys]; [done|]. intros _. simpl.
  rewrite lookup_empty. simpl. apply lookup_path_undef.
Qed.

Lemma split_nonempty d s : JsString.split d s ≠ [].
Proof.
  destruct s as [|c s]; simpl; [done|].
  destruct (Ascii.eqb c d); [done|]. by destruct (JsString.split d s).
Qed.

(** ** Writing a path *)

Lemma incomparable_cons k p q : incomparable (k :: p) (k :: q) -> incomparable p q.
Proof.
  intros [H1 H2]. split; intros Hp; [apply H1 | apply H2]; by apply prefix_cons.
Qed.

Lemma incomparable_sym p q : incomparable p q -> incomparable q p.
Proof. intros [? ?]. by split. Qed.

Lemma incomparable_nil_l q : ¬ incomparable [] q.
Proof. intros [H _]. apply H, prefix_nil. Qed.

Lemma incomparable_nil_r p : ¬ incomparable p [].
Proof. intros [_ H]. apply H, prefix_nil. Qed.

Lemma incomparable_ne p : ¬ incomparable p p.
Proof. by intros [H _]. Qed.

Lemma dset_loop_last c props k val :
  reserved_key k = false ->
  dset_loop (VObj c props) [k] val = Ok (VObj c (<[k := val]> props)).
Proof. intros Hk. simpl. by rewrite Hk. Qed.

Lemma dset_loop_step c props k k' keys val :
  reserved_key k = false ->
  dset_loop (VObj c props) (k :: k' :: keys) val
  = child' ← dset_loop (next_container (default VUndef (props !! k)) k') (k' :: keys) val;
    Ok (VObj c (<[k := child']> props)).
Proof. intros Hk. cbn [dset_loop]. by rewrite Hk. Qed.

Lemma dset_loop_reserved t k keys val :
  reserved_key k = true -> dset_loop t (k :: keys) val = Ok t.
Proof. intros Hk. simpl. by rewrite Hk. Qed.

Lemma dset_loop_prim (p : prim) k keys val t' :
  reserved_key k = false -> dset_loop p (k :: keys) val = Ok t' -> False.
Proof. intros Hk. simpl. rewrite Hk. by destruct p. Qed.

Lemma next_container_lookup x k' p :
  p ≠ [] ->
  lookup_path (next_container x k') p = lookup_path x p.
Proof.
  intros Hp. unfold next_container in *.
  destruct x as [pr|c m]; simpl in *; [|done].
  destruct pr; simpl in *; try done;
    rewrite (lookup_path_prim _ p Hp);
    destruct (JsString.numeric k'); by apply lookup_path_empty.
Qed.

(** A write leaves every path that neither leads to it nor through it as it
    was. *)
Lemma dset_loop_frame q : ∀ t p val t',
  incomparable p q ->
  dset_loop t q val = Ok t' ->
  lookup_path t' p = lookup_path t p.
Proof.
  induction q as [|k q IH]; intros t p val t' Hinc Hset.
  { by apply incomparable_nil_r in Hinc. }
  destruct (reserved_key k) eqn:Hk.
  { rewrite dset_loop_reserved in Hset by done. by injection Hset as <-. }
  destruct t as [pr|c m]; [by eapply dset_loop_prim in Hset|].
  destruct p as [|k1 p]; [by apply incomparable_nil_l in Hinc|].
  destruct q as [|k' q].
  - rewrite dset_loop_last in Hset by done. injection Hset as <-.
    simpl. destruct (decide (k1 = k)) as [->|Hne].
    + destruct Hinc as [_ []]. by apply prefix_cons, prefix_nil.
    + by rewrite lookup_insert_ne.
  - rewrite dset_loop_step in Hset by done.
    apply bind_Ok in Hset as (child' & Hchild & [= <-]).
    simpl. destruct (decide (k1 = k)) as [->|Hne]; [|by rewrite lookup_insert_ne].
    rewrite lookup_insert_eq. simpl.
    apply incomparable_cons in Hinc as Hinc'.
    rewrite (IH _ _ _ _ Hinc' Hchild).
    apply next_container_lookup.
    intros ->. destruct Hinc as [[] _]. by apply prefix_cons, prefix_nil.
Qed.

(** A write is read back at its own path. *)
Lemma dset_loop_get q : ∀ t val t',
  q ≠ [] -> unreserved q ->
  dset_loop t q val = Ok t' ->
  lookup_path t' q = val.
Proof.
  induction q as [|k q IH]; intros t val t' Hne Hres Hset; [done|].
  apply Forall_cons in Hres as [Hk Hres].
  destruct t as [pr|c m]; [by eapply dset_loop_prim in Hset|].
  destruct q as [|k' q].
  - rewrite dset_loop_last in Hset by done. injection Hset as <-.
    simpl. by rewrite lookup_insert_eq.
  - rewrite dset_loop_step in Hset by done.
    apply bind_Ok in Hset as (child' & Hchild & [= <-]).
    cbn [lookup_path get_own]. rewrite lookup_insert_eq. cbn [default].
    by eapply IH.
Qed.

(** A write keeps the class of the object it is applied to. *)
Lemma dset_loop_object q c props val t' :
  dset_loop (VObj c props) q val = Ok t' -> ∃ props', t' = VObj c props'.
Proof.
  destruct q as [|k q]; simpl; [intros [= <-]; eauto|].
  destruct (reserved_key k); [intros [= <-]; eauto|].
  destruct q as [|k' q]; [intros [= <-]; eauto|].
  intros (child' & _ & [= <-])%bind_Ok. eauto.
Qed.

Lemma dset_loop_succeeds q : ∀ c props val,
  writable (VObj c props) q ->
  ∃ t', dset_loop (VObj c props) q val = Ok t'.
Proof.
  induction q as [|k q IH]; intros c props val Hw; [simpl; eauto|].
  destruct (reserved_key k) eqn:Hk.
  { rewrite dset_loop_reserved by done. eauto. }
  destruct q as [|k' q].
  { rewrite dset_loop_last by done. eauto. }
  rewrite dset_loop_step by done.
  set (x := default VUndef (props !! k)).
  assert (Hx : x ≠ VNull) by (apply (Hw [k] (k' :: q)); done).
  assert (∃ c' props', next_container x k' = VObj c' props'
            ∧ (typeof_object x = true -> next_container x k' = x)) as (c' & props' & Hnc & Hsame).
  { unfold next_container, empty_array, empty_object.
    destruct x as [[]|c' m]; simpl; try done;
      try destruct (JsString.numeric k'); by eexists _, _. }
  rewrite Hnc. destruct (IH c' props' val) as [child' Hchild].
  - intros r r' Hr Hr' Heq. rewrite <- Hnc.
    destruct (typeof_object x) eqn:Hobj.
    + rewrite Hsame by done. apply (Hw (k :: r) r'); [done|done|by rewrite Heq].
    + unfold next_container, empty_array, empty_object. rewrite Hobj.
      destruct (JsString.numeric k'); by rewrite lookup_path_empty.
  - rewrite Hchild. simpl. eauto.
Qed.

(** What a write leaves at a proper prefix of its path is never [null]. *)
Lemma dset_loop_prefix r : ∀ (r' : list string) t val t',
  r ≠ [] -> r' ≠ [] ->
  dset_loop t (r ++ r')%list val = Ok t' ->
  lookup_path t r ≠ VNull ->
  lookup_path t' r ≠ VNull.
Proof.
  induction r as [|k r IH]; intros r' t val t' Hr Hr' Hset Hnn; [done|].
  destruct (reserved_key k) eqn:Hk.
  { simpl in Hset. rewrite Hk in Hset. by injection Hset as <-. }
  destruct t as [pr|c m]; [by eapply dset_loop_prim in Hset|].
  destruct (r ++ r')%list as [|k' q] eqn:Hq.
  { by destruct r, r'. }
  simpl app in Hset. rewrite Hq, dset_loop_step in Hset by done.
  apply bind_Ok in Hset as (child' & Hchild & [= <-]).
  cbn [lookup_path get_own]. rewrite lookup_insert_eq. cbn [default].
  destruct r as [|k0 r].
  - simpl. simpl in Hnn.
    assert (∃ c' m', next_container (default VUndef (m !! k)) k' = VObj c' m')
      as (c' & m' & Hnc).
    { unfold next_container, empty_array, empty_object.
      destruct (default VUndef (m !! k)) as [[]|]; simpl; try done;
        try destruct (JsString.numeric k'); by eexists _, _. }
    rewrite Hnc in Hchild. apply dset_loop_object in Hchild as [? ->]. done.
  - rewrite <- Hq in Hchild. eapply IH; [done|done|exact Hchild|].
    rewrite next_container_lookup by done. exact Hnn.
Qed.

(** ** Building the object of a row *)

Lemma build_object_write sch row :
  build_object sch row = write_columns row (Ok empty_object) sch.
Proof. done. Qed.

Lemma write_columns_throw row e sch : write_columns row (Throw e) sch = Throw e.
Proof. induction sch as [|col sch IH]; simpl; [done | apply IH]. Qed.

Lemma write_columns_cons row obj col sch obj' :
  write_columns row (Ok obj) (col :: sch) = Ok obj' ↔
  ∃ obj1, dset_loop obj (key_path col) (row_get row (header_of col)) = Ok obj1
          ∧ write_columns row (Ok obj1) sch = Ok obj'.
Proof.
  simpl. unfold dset, key_path, header_of.
  destruct (dset_loop obj _ _) as [obj1|e] eqn:Hset; simpl.
  - split; [eauto | by intros (? & [= ->] & ?)].
  - rewrite write_columns_throw. split; [done | by intros (? & [=] & ?)].
Qed.

Lemma write_columns_object row sch : ∀ c props obj',
  write_columns row (Ok (VObj c props)) sch = Ok obj' -> ∃ props', obj' = VObj c props'.
Proof.
  induction sch as [|col sch IH]; intros c props obj' H.
  - injection H as <-. eauto.
  - apply write_columns_cons in H as (obj1 & Hset & Hrest).
    apply dset_loop_object in Hset as [props1 ->]. by eapply IH.
Qed.

Lemma write_columns_frame row p sch : ∀ obj obj',
  Forall (fun col => incomparable p (key_path col)) sch ->
  write_columns row (Ok obj) sch = Ok obj' ->
  lookup_path obj' p = lookup_path obj p.
Proof.
  induction sch as [|col sch IH]; intros obj obj' Hinc H.
  - by injection H as <-.
  - apply Forall_cons in Hinc as [Hcol Hinc].
    apply write_columns_cons in H as (obj1 & Hset & Hrest).
    rewrite (IH _ _ Hinc Hrest). by eapply dset_loop_frame.
Qed.

(** After the writes of a row, a column that no later column writes at,
    above or below holds the row's value for its header. *)
Lemma write_columns_lookup row pre col post obj obj' :
  unreserved (key_path col) ->
  Forall (fun later => incomparable (key_path col) (key_path later)) post ->
  write_columns row (Ok obj) (pre ++ col :: post)%list = Ok obj' ->
  lookup_path obj' (key_path col) = row_get row (header_of col).
Proof.
  intros Hres Hpost. revert obj.
  induction pre as [|c0 pre IH]; intros obj H.
  - apply write_columns_cons in H as (obj1 & Hset & Hrest).
    rewrite (write_columns_frame _ _ _ _ _ Hpost Hrest).
    eapply dset_loop_get; [apply split_nonempty | done | done].
  - apply write_columns_cons in H as (obj1 & _ & Hrest). by eapply IH.
Qed.

Lemma writable_after_write t q p val t' :
  incomparable p q ->
  dset_loop t q val = Ok t' ->
  writable t p -> writable t' p.
Proof.
  intros Hinc Hset Hw r r' Hr Hr' ->.
  destruct (decide (r `prefix_of` q)) as [[q' ->]|Hrq].
  - eapply dset_loop_prefix; [done| |done|by eapply Hw].
    intros ->. rewrite app_nil_r in Hinc. destruct Hinc as [_ []].
    by apply prefix_app_r.
  - rewrite (dset_loop_frame q t r val t'); [by eapply Hw| |done].
    split; [done|]. intros Hqr. destruct Hinc as [_ []].
    by apply prefix_app_r.
Qed.

(** Columns whose key-paths are pairwise incomparable can all be written. *)
Lemma write_columns_succeeds row sch : ∀ c props,
  Forall (fun col => writable (VObj c props) (key_path col)) sch ->
  ForallOrdPairs (fun a b => incomparable (key_path a) (key_path b)) sch ->
  ∃ obj', write_columns row (Ok (VObj c props)) sch = Ok obj'.
Proof.
  induction sch as [|col sch IH]; intros c props Hw Hinc; [simpl; eauto|].
  apply Forall_cons in Hw as [Hcol Hw].
  inversion Hinc as [|? ? Hhead Htail]; subst.
  destruct (dset_loop_succeeds (key_path col) c props
              (row_get row (header_of col)) Hcol) as [obj1 Hset].
  destruct (dset_loop_object _ _ _ _ _ Hset) as [props1 ->].
  destruct (IH c props1) as [obj' Hrest]; [|done|].
  - rewrite Forall_forall in Hw. rewrite Forall_forall in Hhead.
    apply Forall_forall. intros later Hin.
    eapply writable_after_write; [|exact Hset|by apply Hw].
    apply incomparable_sym. by apply Hhead.
  - exists obj'. apply write_columns_cons. eauto.
Qed.

Lemma writable_empty c q : writable (VObj c ∅) q.
Proof. intros r r' Hr _ _. by rewrite lookup_path_empty. Qed.

Lemma build_object_succeeds sch row :
  ForallOrdPairs (fun a b => incomparable (key_path a) (key_path b)) sch ->
  ∃ obj, build_object sch row = Ok obj.
Proof.
  intros Hinc. rewrite build_object_write. apply write_columns_succeeds; [|done].
  apply Forall_forall. intros. apply writable_empty.
Qed.

(** [build_object] reads the row at the headers of the schema only. *)
Lemma build_object_ext sch row row' :
  Forall (fun col => row_get row (header_of col) = row_get row' (header_of col)) sch ->
  build_object sch row = build_object sch row'.
Proof.
  intros H. rewrite !build_object_write. generalize (Ok empty_object).
  induction H as [|col sch Hcol _ IH]; intros acc; [done|].
  simpl. unfold header_of in Hcol. rewrite Hcol. apply IH.
Qed.

(** ** Validation *)

Lemma shape_get_set sh k zt k' :
  shape_get (shape_set sh k zt) k' = if decide (k = k') then Some zt else shape_get sh k'.
Proof.
  induction sh as [|[k0 zt0] sh IH]; simpl.
  - destruct (String.eqb_spec k k'); by case_decide.
  - destruct (String.eqb_spec k0 k) as [->|Hne]; simpl.
    + destruct (String.eqb_spec k k'); by case_decide.
    + destruct (String.eqb_spec k0 k'); [|done].
      case_decide; [congruence | done].
Qed.

Lemma shape_set_keys sh k zt :
  k ∈ sh.*1 -> (shape_set sh k zt).*1 = sh.*1.
Proof.
  induction sh as [|[k0 zt0] sh IH]; simpl; [by intros ?%elem_of_nil|].
  destruct (String.eqb_spec k0 k) as [->|Hne]; [done|].
  intros [?|?]%elem_of_cons; [congruence|]. rewrite !fmap_cons. by rewrite IH.
Qed.

Lemma shape_set_fresh sh k zt :
  k ∉ sh.*1 -> shape_set sh k zt = (sh ++ [(k, zt)])%list.
Proof.
  induction sh as [|[k0 zt0] sh IH]; simpl; [done|].
  intros [Hne Hnin]%not_elem_of_cons.
  destruct (String.eqb_spec k0 k) as [->|_]; [done|]. by rewrite IH.
Qed.

Lemma shape_set_NoDup sh k zt : NoDup sh.*1 -> NoDup (shape_set sh k zt).*1.
Proof.
  intros Hnd. destruct (decide (k ∈ sh.*1)) as [Hin|Hnin].
  - by rewrite shape_set_keys.
  - rewrite shape_set_fresh, fmap_app by done. simpl.
    apply NoDup_app. split_and!; [done| |apply NoDup_singleton].
    intros x Hx ->%list_elem_of_singleton. done.
Qed.

Lemma from_entries_NoDup entries : NoDup (from_entries entries).*1.
Proof.
  unfold from_entries. generalize (NoDup_nil_2 (A:=string)).
  change (@nil string) with ((@nil (string * ZodType)).*1).
  generalize (@nil (string * ZodType)).
  induction entries as [|e entries IH]; intros sh Hsh; simpl; [done|].
  apply IH. by apply shape_set_NoDup.
Qed.

(** Distinct keys: the shape is the list of entries as given. *)
Lemma from_entries_distinct entries : NoDup entries.*1 -> from_entries entries = entries.
Proof.
  unfold from_entries.
  enough (∀ sh, NoDup (sh ++ entries)%list.*1 ->
                fold_left (fun sh e => shape_set sh e.1 e.2) entries sh
                = (sh ++ entries)%list) as H by (intros; by apply (H [])).
  induction entries as [|[k zt] entries IH]; intros sh Hnd; simpl.
  - by rewrite app_nil_r.
  - rewrite shape_set_fresh.
    + rewrite IH; rewrite <- app_assoc; done.
    + rewrite fmap_app in Hnd. apply NoDup_app in Hnd as (_ & Hdisj & _).
      intros Hin. apply (Hdisj k Hin). simpl. apply elem_of_cons. by left.
Qed.

Lemma shape_get_elem sh k zt : NoDup sh.*1 -> (k, zt) ∈ sh -> shape_get sh k = Some zt.
Proof.
  induction sh as [|[k0 zt0] sh IH]; simpl; [by intros _ ?%elem_of_nil|].
  intros [Hnin Hnd]%NoDup_cons [[= <- <-]|Hin]%elem_of_cons.
  - by rewrite String.eqb_refl.
  - destruct (String.eqb_spec k0 k) as [->|_]; [|by apply IH].
    destruct Hnin. apply list_elem_of_fmap. by exists (k, zt).
Qed.

Lemma shape_get_Some sh k zt : shape_get sh k = Some zt -> (k, zt) ∈ sh.
Proof.
  induction sh as [|[k0 zt0] sh IH]; simpl; [done|].
  destruct (String.eqb_spec k0 k) as [->|_].
  - intros [= ->]. apply elem_of_cons. by left.
  - intros. apply elem_of_cons. right. by apply IH.
Qed.

Lemma object_loop_cons props e sh final :
  object_loop props (e :: sh) final
  = object_loop props sh
      (handle_property_result e.1 props
         (zt_decode e.2 (default VUndef (props !! e.1))) final).
Proof. done. Qed.

Lemma object_loop_issues props sh final c :
  p_issues (object_loop props sh final)
  = (p_issues final ++ row_issues sh (VObj c props))%list.
Proof.
  revert final. induction sh as [|[k zt] sh IH]; intros final.
  - simpl. by rewrite app_nil_r.
  - rewrite object_loop_cons, IH. simpl. by rewrite <- app_assoc.
Qed.

Lemma handle_property_result_other key input r final k :
  key ≠ k ->
  p_value (handle_property_result key input r final) !! k = p_value final !! k.
Proof.
  intros Hne. unfold handle_property_result. simpl.
  destruct (is_undefined _); [destruct (input !! key)|];
    by rewrite ?lookup_insert_ne.
Qed.

Lemma object_loop_other props sh k : ∀ final,
  k ∉ sh.*1 ->
  p_value (object_loop props sh final) !! k = p_value final !! k.
Proof.
  induction sh as [|[k0 zt] sh IH]; intros final; [done|].
  rewrite fmap_cons. intros [Hne Hnin]%not_elem_of_cons.
  rewrite object_loop_cons, IH by done.
  by apply handle_property_result_other.
Qed.

Lemma object_loop_value props sh k zt : ∀ final,
  NoDup sh.*1 -> (k, zt) ∈ sh -> p_value final !! k = None ->
  default VUndef (p_value (object_loop props sh final) !! k)
  = p_value (zt_decode zt (default VUndef (props !! k))).
Proof.
  induction sh as [|[k0 zt0] sh IH]; intros final; [by intros _ ?%elem_of_nil|].
  rewrite fmap_cons.
  intros [Hnin Hnd]%NoDup_cons [[= <- <-]|Hin]%elem_of_cons Hfresh;
    rewrite object_loop_cons.
  - rewrite object_loop_other by done. unfold handle_property_result.
    cbn [p_value fst snd].
    destruct (p_value (zt_decode zt _)) as [[]|] eqn:Hv; cbn [is_undefined];
      rewrite ?lookup_insert_eq; try done.
    destruct (props !! k); [by rewrite lookup_insert_eq | by rewrite Hfresh].
  - apply IH; [done|done|].
    rewrite handle_property_result_other; [done|].
    simpl. intros ->. destruct Hnin. apply list_elem_of_fmap. by exists (k, zt).
Qed.

Lemma z_object_run_issues sh c props :
  c = Plain -> p_issues (z_object_run sh (VObj c props)) = row_issues sh (VObj c props).
Proof.
  intros ->. simpl. fold (object_loop props sh (Payload ∅ [])).
  by rewrite (object_loop_issues _ _ _ Plain).
Qed.

(** The decoded row holds, for every key of the shape, the value its type
    decodes the row's cell to. *)
Lemma z_object_run_value sh props k zt :
  NoDup sh.*1 -> (k, zt) ∈ sh ->
  row_get (p_value (z_object_run sh (VObj Plain props))) k
  = p_value (zt_decode zt (default VUndef (props !! k))).
Proof.
  intros Hnd Hin. simpl. fold (object_loop props sh (Payload ∅ [])).
  by apply object_loop_value.
Qed.

Lemma z_array_run_from_value el input : ∀ i,
  p_value (z_array_run_from i el input) = map (fun v => p_value (el v)) input.
Proof. induction input as [|v input IH]; intros i; simpl; [done | by rewrite IH]. Qed.

Lemma z_array_run_from_issues el input : ∀ i,
  p_issues (z_array_run_from i el input)
  = concat (imap (fun j v => prefix_issues (Index (i + j)) (p_issues (el v))) input).
Proof.
  induction input as [|v input IH]; intros i; simpl; [done|].
  rewrite Nat.add_0_r, IH. do 2 f_equal. apply imap_ext. intros j x _. simpl.
  by rewrite Nat.add_succ_r.
Qed.

Lemma z_array_run_issues sh rows :
  Forall plain_object rows ->
  p_issues (z_array_run (z_object_run sh) rows) = validation_issues sh rows.
Proof.
  intros Hrows. unfold z_array_run, validation_issues.
  rewrite z_array_run_from_issues. f_equal. apply imap_ext. intros j row Hj. simpl.
  rewrite Forall_lookup in Hrows. destruct (Hrows _ _ Hj) as [props ->].
  by rewrite z_object_run_issues.
Qed.

Lemma elem_of_validation_issues sh rows iss :
  iss ∈ validation_issues sh rows ↔
  ∃ i row e iss0,
    rows !! i = Some row ∧ e ∈ sh ∧
    iss0 ∈ p_issues (zt_decode e.2 (get_own row e.1)) ∧
    iss = Issue (Index i :: Key e.1 :: issue_path iss0) (issue_message iss0).
Proof.
  unfold validation_issues, row_issues, prefix_issues.
  rewrite list_elem_of_In, in_concat. split.
  - intros (l & Hl & Hiss).
    apply list_elem_of_In, elem_of_lookup_imap in Hl as (i & row & -> & Hrow).
    apply in_map_iff in Hiss as (iss1 & <- & Hiss1).
    apply in_flat_map in Hiss1 as (e & He & Hiss1).
    apply in_map_iff in Hiss1 as (iss0 & <- & Hiss0).
    exists i, row, e, iss0. by rewrite !list_elem_of_In.
  - intros (i & row & e & iss0 & Hrow & He & Hiss0 & ->).
    eexists. split.
    + apply list_elem_of_In, elem_of_lookup_imap. eauto.
    + apply in_map_iff. eexists (Issue (Key e.1 :: issue_path iss0) _).
      split; [done|]. apply in_flat_map. exists e.
      split; [by apply list_elem_of_In|].
      apply in_map_iff. exists iss0. by rewrite <- list_elem_of_In.
Qed.

(** ** Tokenizer results *)

Lemma process_row_plain cfg fields row_source :
  header cfg = true -> plain_object (process_row cfg fields row_source).
Proof. intros H. unfold process_row. rewrite H. by eexists. Qed.

Lemma Papa_parse_plain tokenize csv cfg :
  header cfg = true -> Forall plain_object (data (Papa_parse tokenize csv cfg)).
Proof.
  intros H. unfold Papa_parse. rewrite H. cbn [data].
  apply Forall_forall. intros row (r & <- & _)%list_elem_of_In%in_map_iff.
  by apply process_row_plain.
Qed.

Lemma z_decode_rows_Throw sh rows :
  Forall plain_object rows ->
  validation_issues sh rows ≠ [] ->
  z_decode_rows sh rows = Throw (ZodError (validation_issues sh rows)).
Proof.
  intros Hrows Hne. unfold z_decode_rows. rewrite z_array_run_issues by done.
  by destruct (validation_issues sh rows).
Qed.

Lemma cell_issues_elem sh row k iss0 :
  iss0 ∈ cell_issues sh row k ↔
  ∃ zt, shape_get sh k = Some zt ∧ iss0 ∈ p_issues (zt_decode zt (get_own row k)).
Proof.
  unfold cell_issues. destruct (shape_get sh k) as [zt|].
  - split; [eauto | by intros (? & [= <-] & ?)].
  - split; [by intros ?%elem_of_nil | by intros (? & [=] & _)].
Qed.

Lemma import_unfold tokenize s csv :
  errors (Papa_parse tokenize csv (import_config (opts s))) = [] ->
  import tokenize s csv
  = rows ← z_decode_rows (import_shape s)
             (data (Papa_parse tokenize csv (import_config (opts s))));
    map_result (build_object (schema s)) rows.
Proof. intros H. unfold import. by rewrite H. Qed.

(** ** Structural errors of the tokenizer *)

(** C7: when the tokenizer reports a structural error, [import] throws the
    aggregate of all reported errors together with the tokenizer's metadata;
    the columns' types are not consulted (any schema gives the same throw)
    and nothing is returned. *)
Theorem import_tokenizer_errors tokenize s csv :
  errors (Papa_parse tokenize csv (import_config (opts s))) ≠ [] ->
  ∀ sch,
    import tokenize {| schema := sch; opts := opts s |} csv
    = Throw (AggregateError
               (errors (Papa_parse tokenize csv (import_config (opts s))))
               (meta (Papa_parse tokenize csv (import_config (opts s))))).
Proof.
  intros Herr sch. unfold import. simpl.
  by destruct (errors _).
Qed.

Lemma import_tokenizer_errors_witness :
  import Reference.tokenize Reference.scores Reference.ragged_csv
  = Throw (AggregateError
             [{| err_type := "FieldMismatch"; err_code := "TooFewFields";
                 err_message := "Too few fields"; err_row := Some 0 |}]
             (Reference.reference_meta (Some ["ID"; "Score"]))).
Proof.
  refine (eq_trans
            (import_tokenizer_errors Reference.tokenize Reference.scores
               Reference.ragged_csv _ (schema Reference.scores)) _).
  - vm_compute. discriminate.
  - vm_compute. reflexivity.
Defined.

(** ** Validation failures *)

(** C2 (amended): when the tokenizer reports no structural error and, header
    mode being in force, some cell fails its column's type, [import] throws
    one validation error and returns nothing.  The error aggregates, over all
    rows and all columns in one pass, the issues of every failing cell, each
    located by row index and column header: a (row, column) pair is the
    location of an issue exactly when its cell fails. *)
Theorem import_validation_errors tokenize s csv :
  errors (Papa_parse tokenize csv (import_config (opts s))) = [] ->
  header (import_config (opts s)) = true ->
  (∃ i row k,
      data (Papa_parse tokenize csv (import_config (opts s))) !! i = Some row
      ∧ cell_issues (import_shape s) row k ≠ []) ->
  import tokenize s csv
  = Throw (ZodError
             (validation_issues (import_shape s)
                (data (Papa_parse tokenize csv (import_config (opts s))))))
  ∧ ∀ i k,
      (∃ iss,
          iss ∈ validation_issues (import_shape s)
                  (data (Papa_parse tokenize csv (import_config (opts s))))
          ∧ located i k iss)
      ↔ (∃ row,
            data (Papa_parse tokenize csv (import_config (opts s))) !! i = Some row
            ∧ cell_issues (import_shape s) row k ≠ []).
Proof.
  intros Herr Hhdr Hfail.
  set (rows := data (Papa_parse tokenize csv (import_config (opts s)))) in *.
  set (sh := import_shape s) in *.
  assert (Hnd : NoDup sh.*1) by apply from_entries_NoDup.
  assert (Hiff : ∀ i k,
    (∃ iss, iss ∈ validation_issues sh rows ∧ located i k iss)
    ↔ (∃ row, rows !! i = Some row ∧ cell_issues sh row k ≠ [])).
  { intros i k. split.
    - intros (iss & Hin & rest & Hpath).
      apply elem_of_validation_issues in Hin
        as (i' & row & [k' zt] & iss0 & Hrow & He & Hiss0 & ->).
      simpl in Hpath. injection Hpath as -> -> _.
      exists row. split; [done|]. intros Hnil.
      assert (iss0 ∈ cell_issues sh row k) as Hc.
      { apply cell_issues_elem. exists zt. split; [by apply shape_get_elem|done]. }
      rewrite Hnil in Hc. by apply elem_of_nil in Hc.
    - intros (row & Hrow & Hne).
      destruct (cell_issues sh row k) as [|iss0 l] eqn:Hc; [done|].
      assert (iss0 ∈ cell_issues sh row k) as Hin by (rewrite Hc; apply elem_of_cons; by left).
      apply cell_issues_elem in Hin as (zt & Hget & Hin).
      exists (Issue (Index i :: Key k :: issue_path iss0) (issue_message iss0)).
      split; [|by eexists].
      apply elem_of_validation_issues. exists i, row, (k, zt), iss0.
      split_and!; [done|by apply shape_get_Some|done|done]. }
  split; [|done].
  rewrite import_unfold by done. fold rows sh.
  rewrite z_decode_rows_Throw; [done|by apply Papa_parse_plain|].
  destruct Hfail as (i & row & k & Hrow & Hne).
  destruct (proj2 (Hiff i k)) as (iss & Hin & _); [eauto|].
  intros Hnil. rewrite Hnil in Hin. by apply elem_of_nil in Hin.
Qed.

Lemma import_validation_errors_witness :
  import Reference.tokenize Reference.scores Reference.invalid_csv
  = Throw (ZodError
             [Issue [Index 0; Key "Score"] "Invalid string: must match pattern";
              Issue [Index 2; Key "Score"] "Invalid string: must match pattern"]).
Proof.
  destruct (import_validation_errors Reference.tokenize Reference.scores
              Reference.invalid_csv) as [H _].
  - vm_compute. reflexivity.
  - vm_compute. reflexivity.
  - eexists 0, _, "Score". split.
    + vm_compute. reflexivity.
    + vm_compute. discriminate.
  - rewrite H. vm_compute. reflexivity.
Defined.

(** C2 as stated fails: a text with a failing cell on which the tokenizer
    also reports an error makes [import] throw the tokenizer's errors, with
    no issue for the cell. *)
Lemma import_validation_errors_counterexample :
  (∃ row,
      data (Papa_parse Reference.tokenize Reference.ragged_invalid_csv
              (import_config (opts Reference.scores))) !! 0 = Some row
      ∧ cell_issues (import_shape Reference.scores) row "Score" ≠ [])
  ∧ import Reference.tokenize Reference.scores Reference.ragged_invalid_csv
    = Throw (AggregateError
               [{| err_type := "FieldMismatch"; err_code := "TooManyFields";
                   err_message := "Too many fields"; err_row := Some 0 |}]
               (Reference.reference_meta (Some ["ID"; "Score"]))).
Proof.
  split.
  - eexists. split.
    + vm_compute. reflexivity.
    + vm_compute. discriminate.
  - vm_compute. reflexivity.
Qed.

(** ** Successful imports *)

Lemma import_Ok tokenize s csv objs :
  import tokenize s csv = Ok objs ->
  errors (Papa_parse tokenize csv (import_config (opts s))) = []
  ∧ ∃ dec,
      z_decode_rows (import_shape s)
        (data (Papa_parse tokenize csv (import_config (opts s)))) = Ok dec
      ∧ Forall2 (fun d obj => build_object (schema s) d = Ok obj) dec objs.
Proof.
  unfold import.
  destruct (errors (Papa_parse tokenize csv (import_config (opts s)))) as [|e l] eqn:He;
    simpl; [|done].
  intros (dec & Hdec & Hobjs)%bind_Ok. split; [done|].
  exists dec. split; [done|]. by apply map_result_Ok.
Qed.

(** A write through a path leaves an object at every proper prefix of it. *)
Lemma dset_loop_container r : ∀ (r' : list string) t val t',
  r ≠ [] -> r' ≠ [] -> unreserved (r ++ r')%list ->
  dset_loop t (r ++ r')%list val = Ok t' ->
  ∃ c m, lookup_path t' r = VObj c m.
Proof.
  induction r as [|k r IH]; intros r' t val t' Hr Hr' Hres Hset; [done|].
  simpl app in Hres, Hset. apply Forall_cons in Hres as [Hk Hres].
  destruct t as [pr|c0 m0]; [by eapply dset_loop_prim in Hset|].
  destruct (r ++ r')%list as [|k' q] eqn:Hq; [by destruct r, r'|].
  rewrite dset_loop_step in Hset by done.
  apply bind_Ok in Hset as (child' & Hchild & [= <-]).
  cbn [lookup_path get_own]. rewrite lookup_insert_eq. cbn [default].
  destruct r as [|k0 r].
  - simpl. apply Forall_cons in Hres as [Hk' _].
    destruct (next_container (default VUndef (m0 !! k)) k') as [pr|c1 m1] eqn:Hnc.
    + by eapply dset_loop_prim in Hchild.
    + apply dset_loop_object in Hchild as [m' ->]. eauto.
  - rewrite <- Hq in Hchild, Hres. by eapply IH.
Qed.

(** An object stays an object under writes that do not replace it. *)
Lemma dset_loop_keeps_object r : ∀ t q val t' c m,
  lookup_path t r = VObj c m ->
  dset_loop t q val = Ok t' ->
  ¬ q `prefix_of` r ->
  ∃ m', lookup_path t' r = VObj c m'.
Proof.
  induction r as [|k r IH]; intros t q val t' c m Hobj Hset Hnp.
  { simpl in *. subst t. by eapply dset_loop_object. }
  destruct q as [|k1 q]; [destruct Hnp; apply prefix_nil|].
  destruct (reserved_key k1) eqn:Hk1.
  { rewrite dset_loop_reserved in Hset by done. injection Hset as <-. eauto. }
  destruct t as [pr|c0 m0]; [by eapply dset_loop_prim in Hset|].
  destruct (decide (k1 = k)) as [->|Hne].
  - destruct q as [|k' q]; [destruct Hnp; by apply prefix_cons, prefix_nil|].
    rewrite dset_loop_step in Hset by done.
    apply bind_Ok in Hset as (child' & Hchild & [= <-]).
    cbn [lookup_path get_own] in *. rewrite lookup_insert_eq. cbn [default].
    assert (typeof_object (default VUndef (m0 !! k)) = true) as Hx.
    { destruct (default VUndef (m0 !! k)) as [pr|]; [|done].
      destruct r; [done|]. by rewrite lookup_path_prim in Hobj. }
    unfold next_container in Hchild. rewrite Hx in Hchild.
    eapply IH; [exact Hobj|exact Hchild|].
    intros Hp. apply Hnp. by apply prefix_cons.
  - exists m. rewrite <- Hobj. eapply dset_loop_frame; [|exact Hset].
    split; intros [z Hz]; simplify_eq/=.
Qed.

Lemma write_columns_keeps_object row r sch : ∀ obj obj' c m,
  Forall (fun col => ¬ key_path col `prefix_of` r) sch ->
  lookup_path obj r = VObj c m ->
  write_columns row (Ok obj) sch = Ok obj' ->
  ∃ m', lookup_path obj' r = VObj c m'.
Proof.
  induction sch as [|col sch IH]; intros obj obj' c m Hnp Hobj H.
  - injection H as <-. eauto.
  - apply Forall_cons in Hnp as [Hcol Hnp].
    apply write_columns_cons in H as (obj1 & Hset & Hrest).
    destruct (dset_loop_keeps_object _ _ _ _ _ _ _ Hobj Hset Hcol) as [m1 Hobj1].
    by eapply IH.
Qed.

Lemma write_columns_app row obj sch1 sch2 obj' :
  write_columns row (Ok obj) (sch1 ++ sch2)%list = Ok obj' ↔
  ∃ obj1, write_columns row (Ok obj) sch1 = Ok obj1
          ∧ write_columns row (Ok obj1) sch2 = Ok obj'.
Proof.
  unfold write_columns. rewrite foldl_app.
  fold (write_columns row (Ok obj) sch1).
  destruct (write_columns row (Ok obj) sch1) as [obj1|e].
  - split; [eauto | by intros (? & [= ->] & ?)].
  - fold (write_columns row (Throw e) sch2). rewrite write_columns_throw.
    split; [done | by intros (? & [=] & _)].
Qed.

Lemma build_object_lookup sch row obj pre col post :
  build_object sch row = Ok obj ->
  sch = (pre ++ col :: post)%list ->
  unreserved (key_path col) ->
  Forall (fun later => incomparable (key_path col) (key_path later)) post ->
  dlv obj col.1.2 = Ok (row_get row (header_of col)).
Proof.
  intros Hb -> Hres Hpost. rewrite dlv_lookup. f_equal.
  rewrite build_object_write in Hb. by eapply write_columns_lookup.
Qed.

(** ** Columns under a shared prefix *)

(** C6 (amended): two columns whose key-paths branch off below a shared
    prefix, with no reserved segment, and such that no later column writes
    at, above or below either of them.  In every imported record the shared
    prefix holds one object, and both columns' decoded values are read from
    that object at the remainders of their paths. *)
Theorem import_shared_prefix tokenize s csv objs pre colA mid colB post
    (shared restA restB : list string) :
  import tokenize s csv = Ok objs ->
  schema s = (pre ++ colA :: mid ++ colB :: post)%list ->
  key_path colA = (shared ++ restA)%list ->
  key_path colB = (shared ++ restB)%list ->
  shared ≠ [] ->
  unreserved (key_path colA) -> unreserved (key_path colB) ->
  Forall (fun later => incomparable (key_path colA) (key_path later))
         (mid ++ colB :: post)%list ->
  Forall (fun later => incomparable (key_path colB) (key_path later)) post ->
  ∃ dec,
    z_decode_rows (import_shape s)
      (data (Papa_parse tokenize csv (import_config (opts s)))) = Ok dec
    ∧ Forall2
        (fun d obj =>
           ∃ c props,
             dlv_loop obj shared = Ok (VObj c props)
             ∧ dlv_loop (VObj c props) restA = Ok (row_get d (header_of colA))
             ∧ dlv_loop (VObj c props) restB = Ok (row_get d (header_of colB))
             ∧ dlv obj colA.1.2 = Ok (row_get d (header_of colA))
             ∧ dlv obj colB.1.2 = Ok (row_get d (header_of colB)))
        dec objs.
Proof.
  intros Himp Hsch HA HB Hshared HresA HresB HlaterA HlaterB.
  apply import_Ok in Himp as (_ & dec & Hdec & Hobjs).
  exists dec. split; [done|].
  eapply Forall2_impl; [exact Hobjs|]. intros d obj Hb. simpl in Hb.
  assert (HrestA : restA ≠ []).
  { intros ->. rewrite app_nil_r in HA.
    apply Forall_app in HlaterA as [_ [[Hp _] _]%Forall_cons].
    apply Hp. rewrite HA, HB. by apply prefix_app_r. }
  pose proof (build_object_lookup _ _ _ _ _ _ Hb Hsch HresA HlaterA) as HgetA.
  assert (HgetB : dlv obj colB.1.2 = Ok (row_get d (header_of colB))).
  { eapply (build_object_lookup _ _ _ (pre ++ colA :: mid)%list); [exact Hb| |done|done].
    rewrite Hsch, <- app_assoc. done. }
  assert (∃ c props, lookup_path obj shared = VObj c props) as (c & props & Hc).
  { rewrite build_object_write, Hsch in Hb.
    apply write_columns_app in Hb as (obj1 & _ & Hb).
    apply write_columns_cons in Hb as (obj2 & Hset & Hb).
    rewrite HA in Hset.
    assert (unreserved (shared ++ restA)%list) as Hres by (by rewrite <- HA).
    destruct (dset_loop_container shared restA _ _ _ Hshared HrestA Hres Hset)
      as (c & m & Hobj).
    assert (Forall (fun col => ¬ key_path col `prefix_of` shared)
                   (mid ++ colB :: post)%list) as Hnp.
    { eapply Forall_impl; [exact HlaterA|]. intros later [_ Hn] Hp.
      apply Hn. rewrite HA. by apply prefix_app_r. }
    destruct (write_columns_keeps_object _ _ _ _ _ _ _ Hnp Hobj Hb) as [m' Hm'].
    eauto. }
  assert (lookup_path obj (key_path colA) = row_get d (header_of colA)) as LA
    by (rewrite dlv_lookup in HgetA; by injection HgetA).
  assert (lookup_path obj (key_path colB) = row_get d (header_of colB)) as LB
    by (rewrite dlv_lookup in HgetB; by injection HgetB).
  rewrite HA, lookup_path_app, Hc in LA. rewrite HB, lookup_path_app, Hc in LB.
  exists c, props. by rewrite !dlv_loop_lookup, Hc, LA, LB.
Qed.

Lemma import_shared_prefix_witness :
  ∃ dec,
    z_decode_rows (import_shape Reference.shared)
      (data (Papa_parse Reference.tokenize Reference.shared_csv
               (import_config (opts Reference.shared)))) = Ok dec
    ∧ Forall2
        (fun d obj =>
           ∃ c props,
             dlv_loop obj ["meta"] = Ok (VObj c props)
             ∧ dlv_loop (VObj c props) ["createdAt"]
               = Ok (row_get d "Created At")
             ∧ dlv_loop (VObj c props) ["scores"; "primary"]
               = Ok (row_get d "Score")
             ∧ dlv obj "meta.createdAt" = Ok (row_get d "Created At")
             ∧ dlv obj "meta.scores.primary" = Ok (row_get d "Score"))
        dec [Reference.shared_record].
Proof.
  apply (import_shared_prefix Reference.tokenize Reference.shared
           Reference.shared_csv [Reference.shared_record]
           [("ID", "id", Reference.z_string)]
           ("Created At", "meta.createdAt", z_optional Reference.z_string)
           []
           ("Score", "meta.scores.primary", z_optional Reference.z_int)
           []
           ["meta"] ["createdAt"] ["scores"; "primary"]).
  - vm_compute. reflexivity.
  - reflexivity.
  - vm_compute. reflexivity.
  - vm_compute. reflexivity.
  - discriminate.
  - apply (bool_decide_unpack _). vm_compute. exact I.
  - apply (bool_decide_unpack _). vm_compute. exact I.
  - apply (bool_decide_unpack _). vm_compute. exact I.
  - constructor.
Defined.

(** C6 as stated fails: the key-paths [a.b] and [a.b.c] share the proper
    prefix [a], yet the second column's write replaces the first column's
    value at [a.b] by a container. *)
Lemma import_shared_prefix_counterexample :
  import Reference.tokenize Reference.nested Reference.nested_csv
  = Ok [object_of [("a", object_of [("b", object_of [("c", VStr "2")])])]]
  ∧ dlv (object_of [("a", object_of [("b", object_of [("c", VStr "2")])])]) "a.b"
    ≠ Ok (VStr "1").
Proof.
  split.
  - vm_compute. reflexivity.
  - vm_compute. intros H. inversion H.
Qed.

(** ** Columns with one key-path *)

(** C10 (amended): two columns with the identical key-path, the path having
    no reserved segment and no column after the later one writing at, above
    or below it.  In every imported record the value at that key-path is the
    decoded value of the later column. *)
Theorem import_last_write_wins tokenize s csv objs pre earlier mid later post :
  import tokenize s csv = Ok objs ->
  schema s = (pre ++ earlier :: mid ++ later :: post)%list ->
  earlier.1.2 = later.1.2 ->
  unreserved (key_path later) ->
  Forall (fun col => incomparable (key_path later) (key_path col)) post ->
  ∃ dec,
    z_decode_rows (import_shape s)
      (data (Papa_parse tokenize csv (import_config (opts s)))) = Ok dec
    ∧ Forall2
        (fun d obj => dlv obj earlier.1.2 = Ok (row_get d (header_of later)))
        dec objs.
Proof.
  intros Himp Hsch Hkp Hres Hpost.
  apply import_Ok in Himp as (_ & dec & Hdec & Hobjs).
  exists dec. split; [done|].
  eapply Forall2_impl; [exact Hobjs|]. intros d obj Hb. simpl in Hb.
  rewrite Hkp.
  eapply (build_object_lookup _ _ _ (pre ++ earlier :: mid)%list); [exact Hb| |done|done].
  rewrite Hsch, <- app_assoc. done.
Qed.

Lemma import_last_write_wins_witness :
  ∃ dec,
    z_decode_rows (import_shape Reference.doubled)
      (data (Papa_parse Reference.tokenize Reference.doubled_csv
               (import_config (opts Reference.doubled)))) = Ok dec
    ∧ Forall2 (fun d obj => dlv obj "x" = Ok (row_get d "B"))
        dec [object_of [("x", VStr "2")]].
Proof.
  apply (import_last_write_wins Reference.tokenize Reference.doubled
           Reference.doubled_csv [object_of [("x", VStr "2")]]
           [] ("A", "x", Reference.z_string) []
           ("B", "x", Reference.z_string) []).
  - vm_compute. reflexivity.
  - reflexivity.
  - reflexivity.
  - apply (bool_decide_unpack _). vm_compute. exact I.
  - constructor.
Defined.

(** C10 as stated fails: with a third column below the doubled key-path, the
    value at that path is the container of the third column, not the decoded
    value of the later of the two. *)
Lemma import_last_write_wins_counterexample :
  import Reference.tokenize Reference.doubled_below Reference.doubled_below_csv
  = Ok [object_of [("x", object_of [("y", VStr "3")])]]
  ∧ dlv (object_of [("x", object_of [("y", VStr "3")])]) "x" ≠ Ok (VStr "2").
Proof.
  split.
  - vm_compute. reflexivity.
  - vm_compute. intros H. inversion H.
Qed.

(** ** Exported rows *)

Lemma export_rows_Ok s entries rows :
  export_rows s entries = Ok rows ↔
  Forall2 (fun e row =>
             Forall2 (fun col cell => export_cell e col = Ok cell) (schema s) row)
          entries rows.
Proof.
  unfold export_rows. rewrite map_result_Ok.
  split; intros H; eapply Forall2_impl; try exact H;
    intros e row; by rewrite map_result_Ok.
Qed.

Lemma export_Ok s entries csv :
  export s entries = Ok csv ↔
  ∃ rows, export_rows s entries = Ok rows
          ∧ csv = Papa_unparse (map (fun e : MetaEntry => PStr e.1.1) (schema s) :: rows)
                    (unparse (opts s)).
Proof.
  unfold export. rewrite bind_Ok. split.
  - intros (rows & Hrows & [= <-]). eauto.
  - intros (rows & Hrows & ->). eauto.
Qed.

Lemma export_cell_Ok e col cell :
  export_cell e col = Ok cell ↔
  ∃ c, encode col.2 (lookup_path e (key_path col)) = Ok c
       ∧ cell = coalesce c (PStr "").
Proof.
  unfold export_cell. rewrite dlv_lookup. simpl.
  fold (key_path col). rewrite bind_Ok. split.
  - intros (c & Hc & [= <-]). eauto.
  - intros (c & Hc & ->). eauto.
Qed.

Lemma cell_text_coalesce c : cell_text (coalesce c (PStr "")) = cell_text c.
Proof. by destruct c. Qed.

Lemma export_cell_at s entries csv i e j col :
  export s entries = Ok csv ->
  entries !! i = Some e -> schema s !! j = Some col ->
  ∃ rows row c,
    csv = Papa_unparse (map (fun e : MetaEntry => PStr e.1.1) (schema s) :: rows)
            (unparse (opts s))
    ∧ rows !! i = Some row
    ∧ encode col.2 (lookup_path e (key_path col)) = Ok c
    ∧ row !! j = Some (coalesce c (PStr "")).
Proof.
  intros (rows & Hrows & ->)%export_Ok He Hcol.
  apply export_rows_Ok in Hrows.
  destruct (Forall2_lookup_l _ _ _ _ _ Hrows He) as (row & Hrow & Hcells).
  destruct (Forall2_lookup_l _ _ _ _ _ Hcells Hcol) as (cell & Hcell & Hexp).
  apply export_cell_Ok in Hexp as (c & Hc & ->).
  by exists rows, row, c.
Qed.

Lemma Forall2_choice {A B} (P : A -> B -> Prop) (l : list A) :
  (∀ a, a ∈ l -> ∃ b, P a b) -> ∃ k, Forall2 P l k.
Proof.
  induction l as [|a l IH]; intros H; [by exists []|].
  destruct (H a) as [b Hb]; [apply elem_of_cons; by left|].
  destruct IH as [k Hk]; [intros; apply H, elem_of_cons; by right|].
  exists (b :: k). by constructor.
Qed.

(** ** Falsy values on export *)

(** C8 (amended): a leaf that is [false] or [0] reaches the column's encode
    as it is, and the cell handed to the writer is the encode output: the
    output itself unless it is nullish, and in every case a cell with the
    text of the output.  Coalescing to the empty string applies to nullish
    encode outputs only, so the cell of such a leaf is empty only when the
    column's encode itself yields a nullish or empty output for it. *)
Theorem export_keeps_falsy s entries csv i e j col v :
  export s entries = Ok csv ->
  entries !! i = Some e ->
  schema s !! j = Some col ->
  dlv e col.1.2 = Ok v ->
  v = VBool false ∨ v = VNum 0 ->
  ∃ rows row c,
    csv = Papa_unparse (map (fun e : MetaEntry => PStr e.1.1) (schema s) :: rows)
            (unparse (opts s))
    ∧ rows !! i = Some row
    ∧ encode col.2 v = Ok c
    ∧ row !! j = Some (coalesce c (PStr ""))
    ∧ cell_text (coalesce c (PStr "")) = cell_text c
    ∧ (prim_nullish c = false -> row !! j = Some c).
Proof.
  intros Hexp He Hcol Hv _.
  destruct (export_cell_at _ _ _ _ _ _ _ Hexp He Hcol)
    as (rows & row & c & Hcsv & Hrow & Hc & Hcell).
  rewrite dlv_lookup in Hv. injection Hv as <-.
  exists rows, row, c. split_and!; try done.
  - apply cell_text_coalesce.
  - intros Hn. rewrite Hcell. unfold coalesce. by rewrite Hn.
Qed.

Lemma export_keeps_falsy_witness :
  ∃ rows row c,
    "Is Admin,Score" ++ CRLF ++ "false,0"
    = Papa_unparse
        (map (fun e : MetaEntry => PStr e.1.1) (schema Reference.flags) :: rows)
        (unparse (opts Reference.flags))
    ∧ rows !! 0 = Some row
    ∧ encode (z_optional Reference.z_int) (VNum 0) = Ok c
    ∧ row !! 1 = Some (coalesce c (PStr ""))
    ∧ cell_text (coalesce c (PStr "")) = cell_text c
    ∧ (prim_nullish c = false -> row !! 1 = Some c).
Proof.
  apply (export_keeps_falsy Reference.flags [Reference.flags_record]
           ("Is Admin,Score" ++ CRLF ++ "false,0") 0 Reference.flags_record
           1 ("Score", "score", z_optional Reference.z_int) (VNum 0)).
  - vm_compute. reflexivity.
  - reflexivity.
  - reflexivity.
  - vm_compute. reflexivity.
  - right. reflexivity.
Defined.

(** C8 as stated fails: a codec that encodes [false] as "no value" makes
    the cell of a [false] leaf empty. *)
Lemma export_keeps_falsy_counterexample :
  dlv Reference.unchecked_record "isAdmin" = Ok (VBool false)
  ∧ encode Reference.z_checkmark (VBool false) = Ok PUndef
  ∧ export_rows Reference.checks [Reference.unchecked_record]
    = Ok [[PStr ""; PStr "1"]]
  ∧ export Reference.checks [Reference.unchecked_record]
    = Ok ("Is Admin,ID" ++ CRLF ++ ",1").
Proof. repeat split; vm_compute; reflexivity. Qed.

(** ** Absent values on export *)

(** C3 (amended): when every value that is absent at a column's key-path
    belongs to a column whose type lets "no value" through, and every other
    value is one its column's encode accepts, [export] does not fail, and
    each such absent value is written as an empty cell. *)
Theorem export_absent_values s entries :
  (∀ e col, e ∈ entries -> col ∈ schema s ->
     (dlv e col.1.2 = Ok VUndef ∧ optional_type col.2)
     ∨ (∃ c, encode col.2 (lookup_path e (key_path col)) = Ok c)) ->
  ∃ rows,
    export s entries
    = Ok (Papa_unparse (map (fun e : MetaEntry => PStr e.1.1) (schema s) :: rows)
            (unparse (opts s)))
    ∧ Forall2
        (fun e row =>
           Forall2
             (fun col cell =>
                export_cell e col = Ok cell
                ∧ (dlv e col.1.2 = Ok VUndef -> optional_type col.2 ->
                   cell = PStr ""))
             (schema s) row)
        entries rows.
Proof.
  intros H.
  assert (∀ e col, e ∈ entries -> col ∈ schema s ->
            ∃ cell, export_cell e col = Ok cell
                    ∧ (dlv e col.1.2 = Ok VUndef -> optional_type col.2 ->
                       cell = PStr "")) as Hcell.
  { intros e col He Hcol.
    assert (∃ c, encode col.2 (lookup_path e (key_path col)) = Ok c) as [c Hc].
    { destruct (H e col He Hcol) as [[Hu [_ Henc]]|]; [|done].
      rewrite dlv_lookup in Hu. injection Hu as Hu. fold (key_path col) in Hu.
      exists PUndef. unfold encode. by rewrite Hu, Henc. }
    exists (coalesce c (PStr "")). split; [apply export_cell_Ok; eauto|].
    intros Hu [_ Henc]. rewrite dlv_lookup in Hu. injection Hu as Hu.
    fold (key_path col) in Hu. rewrite Hu in Hc. unfold encode in Hc.
    rewrite Henc in Hc. by injection Hc as <-. }
  destruct (Forall2_choice
              (fun e row => Forall2 (fun col cell =>
                 export_cell e col = Ok cell
                 ∧ (dlv e col.1.2 = Ok VUndef -> optional_type col.2 ->
                    cell = PStr "")) (schema s) row) entries) as [rows Hrows].
  { intros e He. apply Forall2_choice. intros col Hcol. by apply Hcell. }
  exists rows. split; [|done].
  unfold export. replace (export_rows s entries) with (Ok (A:=list (list prim)) rows); [done|].
  symmetry. apply export_rows_Ok.
  eapply Forall2_impl; [exact Hrows|]. intros e row Hr.
  eapply Forall2_impl; [exact Hr|]. by intros col cell [? _].
Qed.

Lemma z_optional_optional_type inner : optional_type (z_optional inner).
Proof. done. Qed.

Lemma export_absent_values_witness :
  ∃ rows,
    export Reference.scores [Reference.scoreless_record]
    = Ok (Papa_unparse
            (map (fun e : MetaEntry => PStr e.1.1) (schema Reference.scores) :: rows)
            (unparse (opts Reference.scores)))
    ∧ Forall2
        (fun e row =>
           Forall2
             (fun col cell =>
                export_cell e col = Ok cell
                ∧ (dlv e col.1.2 = Ok VUndef -> optional_type col.2 ->
                   cell = PStr ""))
             (schema Reference.scores) row)
        [Reference.scoreless_record] rows.
Proof.
  apply (export_absent_values Reference.scores [Reference.scoreless_record]).
  intros e col ->%list_elem_of_singleton Hcol.
  apply elem_of_cons in Hcol as [->|Hcol].
  - right. exists (PStr "300"). vm_compute. reflexivity.
  - apply list_elem_of_singleton in Hcol as ->. left. split.
    + vm_compute. reflexivity.
    + apply z_optional_optional_type.
Defined.

(** C3 as stated fails: a record without the value of a required column
    makes [export] throw the issue of that column's encode. *)
Lemma export_absent_values_counterexample :
  dlv Reference.partial_record "id" = Ok VUndef
  ∧ export Reference.scores [Reference.partial_record]
    = Throw (ZodError [Issue [] "Invalid input: expected string"]).
Proof. split; vm_compute; reflexivity. Qed.

(** ** Reads leave the record as it is *)

Lemma heap_dlv_loop_frame key : ∀ obj h, (Heap.dlv_loop obj key h).2 = h.
Proof.
  induction key as [|k key IH]; intros obj h; simpl; [done|].
  unfold Heap.bind.
  destruct (Heap.h_truthy obj); [|apply IH].
  unfold Heap.read_prop.
  destruct obj as [[]|l]; simpl; try done; try apply IH.
  destruct (h !! l); [apply IH | done].
Qed.

Lemma heap_dlv_frame obj kp h : (Heap.dlv obj kp h).2 = h.
Proof.
  unfold Heap.dlv, Heap.bind.
  pose proof (heap_dlv_loop_frame (JsString.split "." kp) obj h) as H.
  destruct (Heap.dlv_loop obj (JsString.split "." kp) h) as [[o'|e] h']; simpl in *; done.
Qed.

Lemma heap_dlv_loop_represents key : ∀ h o e,
  Heap.represents h o e ->
  ∃ o', Heap.dlv_loop o key h = (Ok o', h)
        ∧ Heap.represents h o' (lookup_path e key).
Proof.
  induction key as [|k key IH]; intros h o e Hrep; simpl.
  { exists o. by split. }
  unfold Heap.bind.
  inversion Hrep as [p|l c hprops props Hl Hprops]; subst.
  - assert (Heap.represents h (Heap.HPrim PUndef) VUndef) as Hu by constructor.
    destruct (IH h _ _ Hu) as (o' & Hrun & Hrep').
    exists o'. split; [|done].
    destruct p as [| |[]|n|s]; simpl; try done;
      [destruct (n =? 0)%Z | destruct (String.eqb s "")]; simpl; done.
  - simpl. unfold Heap.read_prop. rewrite Hl. simpl.
    apply IH. specialize (Hprops k).
    destruct Hprops; simpl; [done | constructor].
Qed.

Lemma heap_dlv_represents h o e kp :
  Heap.represents h o e ->
  ∃ o', Heap.dlv o kp h = (Ok o', h)
        ∧ Heap.represents h o' (lookup_path e (JsString.split "." kp)).
Proof.
  intros Hrep.
  destruct (heap_dlv_loop_represents (JsString.split "." kp) h o e Hrep)
    as (o' & Hrun & Hrep').
  exists o'. split; [|done].
  unfold Heap.dlv, Heap.bind. rewrite Hrun. unfold Heap.ret.
  by destruct o' as [[]|].
Qed.

(** C9: the read [export] makes at a column's key-path always returns, with
    "no value" when an intermediate segment (absent, [undefined] or [null])
    or the leaf is missing, so that a cell of [export] can only throw in its
    column's encode; run on a store holding the record, the read hands the
    store back as it was and returns the value found in the record. *)
Theorem export_read_is_pure (e : value) (kp : string) :
  dlv e kp = Ok (lookup_path e (JsString.split "." kp))
  ∧ (∀ p r : list string,
       JsString.split "." kp = (p ++ r)%list -> r ≠ [] ->
       lookup_path e p = VUndef ∨ lookup_path e p = VNull ->
       dlv e kp = Ok VUndef)
  ∧ (∀ (p : list string) k c props,
       JsString.split "." kp = (p ++ [k])%list ->
       lookup_path e p = VObj c props -> props !! k = None ->
       dlv e kp = Ok VUndef)
  ∧ (∀ hdr zt,
       export_cell e (hdr, kp, zt)
       = c ← encode zt (lookup_path e (JsString.split "." kp));
         Ok (coalesce c (PStr "")))
  ∧ (∀ h o, (Heap.dlv o kp h).2 = h)
  ∧ (∀ h o, Heap.represents h o e ->
       ∃ o', Heap.dlv o kp h = (Ok o', h)
             ∧ Heap.represents h o' (lookup_path e (JsString.split "." kp))).
Proof.
  split_and!.
  - apply dlv_lookup.
  - intros p r Hsplit Hr Hp. rewrite dlv_lookup, Hsplit, lookup_path_app.
    by destruct Hp as [-> | ->]; rewrite lookup_path_prim.
  - intros p k c props Hsplit Hp Hk.
    rewrite dlv_lookup, Hsplit, lookup_path_app, Hp. simpl. by rewrite Hk.
  - intros hdr zt. unfold export_cell. by rewrite dlv_lookup.
  - intros h o. apply heap_dlv_frame.
  - intros h o. apply heap_dlv_represents.
Qed.

Lemma export_read_is_pure_witness :
  dlv Reference.partial_record "meta.scores.primary" = Ok VUndef
  ∧ Heap.dlv (Heap.HRef 1%positive) "meta.scores.primary" Heap.sample
    = (Ok (Heap.HPrim PUndef), Heap.sample).
Proof.
  destruct (export_read_is_pure Reference.partial_record "meta.scores.primary")
    as (_ & Habsent & _ & _ & _ & Hheap).
  split.
  - apply (Habsent ["meta"; "scores"] ["primary"]).
    + vm_compute. reflexivity.
    + discriminate.
    + left. vm_compute. reflexivity.
  - destruct (Hheap Heap.sample (Heap.HRef 1%positive)) as (o' & Hrun & Hrep).
    + eapply (Heap.represents_obj _ 1%positive Plain
                (<["meta" := Heap.HRef 2%positive]> ∅)); [reflexivity|].
      intros k. destruct (decide (k = "meta")) as [->|Hne].
      * rewrite lookup_insert_eq.
        change (list_to_map (reverse [("meta", object_of [])]) !! "meta")
          with (Some (object_of [])).
        constructor.
        eapply (Heap.represents_obj _ 2%positive Plain ∅); [reflexivity|].
        intros k. change (list_to_map (reverse []) !! k) with ((∅ : gmap string value) !! k).
        rewrite !lookup_empty. constructor.
      * rewrite lookup_insert_ne, lookup_empty by done.
        replace (list_to_map (reverse [("meta", object_of [])]) !! k)
          with (@None value); [constructor|].
        symmetry. change (reverse [("meta", object_of [])]) with [("meta", object_of [])].
        simpl. by rewrite lookup_insert_ne, lookup_empty.
    + rewrite Hrun. f_equal. f_equal.
      assert (lookup_path Reference.partial_record
                (JsString.split "." "meta.scores.primary") = VUndef) as Hv
        by (vm_compute; reflexivity).
      rewrite Hv in Hrep. by inversion Hrep.
Defined.

(** ** Rows as the tokenizer hands them on *)

Lemma import_config_hooks o :
  library_hooks o ->
  header (import_config o) = true
  ∧ skipEmptyLines (import_config o) = SkipEmpty
  ∧ transformHeader (import_config o) = Some JsString.trim
  ∧ transform (import_config o) = Some trim_or_undefined.
Proof.
  unfold library_hooks, import_config. intros (-> & -> & -> & ->). done.
Qed.

Lemma Papa_parse_header tokenize csv cfg :
  header cfg = true ->
  let rows := skip_blank_lines (skipEmptyLines cfg) (raw_data (tokenize cfg csv)) in
  let fields := fill_header_fields (transformHeader cfg) rows in
  data (Papa_parse tokenize csv cfg) = map (process_row cfg fields) (tail rows)
  ∧ errors (Papa_parse tokenize csv cfg)
    = (raw_errors (tokenize cfg csv)
       ++ concat (imap (field_mismatch (length fields)) (tail rows)))%list.
Proof. intros H. unfold Papa_parse. by rewrite H. Qed.

Lemma concat_nil_inv {A} (ls : list (list A)) l :
  concat ls = [] -> l ∈ ls -> l = [].
Proof.
  induction ls as [|l0 ls IH]; simpl; [by intros _ ?%elem_of_nil|].
  intros [-> Hls]%app_eq_nil [->|Hin]%elem_of_cons; [done | by apply IH].
Qed.

Lemma field_mismatch_nil n i row : field_mismatch n i row = [] -> length row = n.
Proof.
  unfold field_mismatch.
  destruct (Nat.ltb_spec n (length row)); [done|].
  destruct (Nat.ltb_spec (length row) n); [done|]. lia.
Qed.

Lemma insert_all_other (l : list (string * value)) k : ∀ m : gmap string value,
  k ∉ l.*1 ->
  fold_left (fun row fc => <[fc.1 := fc.2]> row) l m !! k = m !! k.
Proof.
  induction l as [|[k0 v0] l IH]; intros m; [done|].
  rewrite fmap_cons. intros [Hne Hnin]%not_elem_of_cons. simpl.
  rewrite IH by done. by rewrite lookup_insert_ne.
Qed.

Lemma insert_all_lookup (l : list (string * value)) k v : ∀ m : gmap string value,
  NoDup l.*1 -> (k, v) ∈ l ->
  fold_left (fun row fc => <[fc.1 := fc.2]> row) l m !! k = Some v.
Proof.
  induction l as [|[k0 v0] l IH]; intros m; [by intros _ ?%elem_of_nil|].
  rewrite fmap_cons. intros [Hnin Hnd]%NoDup_cons [[= <- <-]|Hin]%elem_of_cons; simpl.
  - rewrite insert_all_other by done. by rewrite lookup_insert_eq.
  - by apply IH.
Qed.

(** In header mode, a row with as many cells as there are header fields is
    the object that maps every field to its transformed cell. *)
Lemma process_row_lookup cfg fields cells p h c :
  header cfg = true ->
  NoDup fields ->
  length cells = length fields ->
  fields !! p = Some h -> cells !! p = Some c ->
  get_own (process_row cfg fields cells) h = apply_transform cfg c.
Proof.
  intros Hhdr Hnd Hlen Hf Hc. unfold process_row. rewrite Hhdr.
  rewrite length_map, Hlen, Nat.ltb_irrefl. simpl.
  rewrite (insert_all_lookup _ h (apply_transform cfg c)); [done| |].
  - rewrite fst_zip; [done|]. rewrite length_map. lia.
  - apply list_elem_of_lookup. exists p.
    apply lookup_zip_Some. split; [done|].
    change (map (apply_transform cfg) cells) with (apply_transform cfg <$> cells).
    by rewrite list_lookup_fmap, Hc.
Qed.

Lemma all_whitespace_trim c : JsString.all_whitespace c = true -> JsString.trim c = "".
Proof.
  unfold JsString.all_whitespace, JsString.trim.
  by intros ->%String.eqb_eq.
Qed.

Lemma trim_or_undefined_blank c :
  JsString.all_whitespace c = true -> trim_or_undefined c = VUndef.
Proof. intros H. unfold trim_or_undefined. by rewrite all_whitespace_trim. Qed.

Lemma z_decode_rows_Ok sh rows dec :
  z_decode_rows sh rows = Ok dec ->
  dec = map (fun r => p_value (z_object_run sh r)) rows
  ∧ p_issues (z_array_run (z_object_run sh) rows) = [].
Proof.
  unfold z_decode_rows.
  destruct (p_issues (z_array_run (z_object_run sh) rows)) eqn:Hi; [|done].
  intros [= <-]. split; [|done]. apply z_array_run_from_value.
Qed.

Lemma import_shape_distinct s :
  NoDup (map header_of (schema s)) ->
  import_shape s = map (fun e : MetaEntry => (e.1.1, e.2)) (schema s).
Proof.
  intros Hnd. unfold import_shape. apply from_entries_distinct.
  change (map (fun e : MetaEntry => (e.1.1, e.2)) (schema s))
    with ((fun e : MetaEntry => (e.1.1, e.2)) <$> schema s).
  rewrite <- list_fmap_compose.
  by change (NoDup (map header_of (schema s))).
Qed.

(** What a decoded row holds for a column, headers being distinct. *)
Lemma decoded_row_get s props col :
  NoDup (map header_of (schema s)) ->
  col ∈ schema s ->
  row_get (p_value (z_object_run (import_shape s) (VObj Plain props))) (header_of col)
  = p_value (zt_decode col.2 (default VUndef (props !! header_of col))).
Proof.
  intros Hnd Hcol. apply z_object_run_value; [apply from_entries_NoDup|].
  rewrite import_shape_distinct by done.
  apply list_elem_of_In, in_map_iff. exists col. by rewrite <- list_elem_of_In.
Qed.

(** ** Absence *)

(** C5 (amended): for an optional column.  On import — the library's parse
    settings in force, the schema's headers distinct, the header fields of
    the text distinct, the column's key-path without reserved segment and
    not written at, above or below by a later column — an empty or
    whitespace-only cell under the column's header (white space as [trim]
    takes it, of one byte or more) leaves "no value" at the key-path of the
    imported record.  On export an
    absent or undefined leaf at the column's key-path is written as an empty
    cell, and so is any leaf whose encode output is nullish. *)
Theorem absence_mapping tokenize s csv objs pre col post :
  schema s = (pre ++ col :: post)%list ->
  optional_type col.2 ->
  (library_hooks (opts s) ->
   NoDup (map header_of (schema s)) ->
   unreserved (key_path col) ->
   Forall (fun later => incomparable (key_path col) (key_path later)) post ->
   import tokenize s csv = Ok objs ->
   NoDup (fill_header_fields (Some JsString.trim)
            (skip_blank_lines SkipEmpty
               (raw_data (tokenize (import_config (opts s)) csv)))) ->
   ∀ i cells obj p c,
     tail (skip_blank_lines SkipEmpty
             (raw_data (tokenize (import_config (opts s)) csv))) !! i = Some cells ->
     objs !! i = Some obj ->
     fill_header_fields (Some JsString.trim)
       (skip_blank_lines SkipEmpty
          (raw_data (tokenize (import_config (opts s)) csv))) !! p
     = Some (header_of col) ->
     cells !! p = Some c ->
     JsString.all_whitespace c = true ->
     dlv obj col.1.2 = Ok VUndef)
  ∧ (∀ e, dlv e col.1.2 = Ok VUndef -> export_cell e col = Ok (PStr ""))
  ∧ (∀ e v c, dlv e col.1.2 = Ok v -> encode col.2 v = Ok c ->
              prim_nullish c = true -> export_cell e col = Ok (PStr "")).
Proof.
  intros Hsch [Hdec Henc]. split_and!.
  - intros Hhooks Hnd Hres Hpost Himp Hfields i cells obj p c Hcells Hobj Hp Hc Hws.
    apply import_config_hooks in Hhooks as (Hhdr & Hskip & Hth & Htr).
    apply import_Ok in Himp as (Herr & dec & Hrows & Hobjs).
    destruct (Papa_parse_header tokenize csv (import_config (opts s)) Hhdr)
      as [Hdata Herrs].
    rewrite Hskip, Hth in Hdata, Herrs.
    set (rows := skip_blank_lines SkipEmpty
                   (raw_data (tokenize (import_config (opts s)) csv))) in *.
    set (fields := fill_header_fields (Some JsString.trim) rows) in *.
    apply z_decode_rows_Ok in Hrows as [-> _].
    rewrite Hdata in Hobjs.
    change (map ?f (map ?g ?l)) with (f <$> (g <$> l)) in Hobjs.
    destruct (Forall2_lookup_r _ _ _ _ _ Hobjs Hobj) as (d & Hd & Hbuild).
    rewrite !list_lookup_fmap, Hcells in Hd. injection Hd as <-.
    assert (length cells = length fields) as Hlen.
    { rewrite Herr in Herrs. symmetry in Herrs.
      apply app_eq_nil in Herrs as [_ Hmis].
      eapply field_mismatch_nil, (concat_nil_inv _ _ Hmis).
      by apply elem_of_lookup_imap_2. }
    assert (get_own (process_row (import_config (opts s)) fields cells) (header_of col)
            = VUndef) as Hcell.
    { rewrite (process_row_lookup _ _ _ p _ c) by done.
      unfold apply_transform. rewrite Htr. by apply trim_or_undefined_blank. }
    destruct (process_row_plain (import_config (opts s)) fields cells Hhdr)
      as [props Hprops].
    rewrite Hprops in Hcell, Hbuild. simpl in Hcell.
    erewrite build_object_lookup; [|exact Hbuild|exact Hsch|done|done].
    rewrite decoded_row_get, Hcell, Hdec; [done|done|].
    rewrite Hsch. apply elem_of_app. right. apply elem_of_cons. by left.
  - intros e He. apply export_cell_Ok. exists PUndef. split; [|done].
    rewrite dlv_lookup in He. injection He as He. fold (key_path col) in He.
    unfold encode. by rewrite He, Henc.
  - intros e v c Hv Hc Hn. apply export_cell_Ok. exists c.
    rewrite dlv_lookup in Hv. injection Hv as <-. split; [done|].
    unfold coalesce. by rewrite Hn.
Qed.

Lemma absence_mapping_witness :
  dlv (object_of [("id", VStr "102");
                  ("meta", object_of [("scores", object_of [("primary", VUndef)])])])
      "meta.scores.primary" = Ok VUndef
  ∧ export_cell Reference.scoreless_record
      ("Score", "meta.scores.primary", z_optional Reference.z_int) = Ok (PStr "").
Proof.
  destruct (absence_mapping Reference.tokenize Reference.scores
              Cases.nbsp_score_csv
              [object_of [("id", VStr "102");
                          ("meta", object_of [("scores", object_of [("primary", VUndef)])])]]
              [("ID", "id", Reference.z_string)]
              ("Score", "meta.scores.primary", z_optional Reference.z_int) [])
    as (Himport & Hexport & _).
  - reflexivity.
  - apply z_optional_optional_type.
  - split.
    + apply (Himport ltac:(done)
               ltac:(apply (bool_decide_unpack _); vm_compute; exact I)
               ltac:(apply (bool_decide_unpack _); vm_compute; exact I)
               ltac:(constructor)
               ltac:(vm_compute; reflexivity)
               ltac:(apply (bool_decide_unpack _); vm_compute; exact I)
               0 ["102"; " " ++ Cases.NBSP ++ " "] _ 1 (" " ++ Cases.NBSP ++ " "));
        vm_compute; reflexivity.
    + apply Hexport. vm_compute. reflexivity.
Defined.

(** C5 as stated fails.  On import, an empty cell of an optional column
    whose key-path a later column writes again leaves that column's value,
    not "no value", at the path.  On export, a [null] leaf of an optional
    column whose encode rejects [null] makes [export] throw. *)
Lemma absence_mapping_counterexample :
  (import Reference.tokenize Reference.shadowed Reference.shadowed_csv
   = Ok [object_of [("x", VStr "hello")]]
   ∧ dlv (object_of [("x", VStr "hello")]) "x" = Ok (VStr "hello"))
  ∧ (dlv Reference.null_score_record "meta.scores.primary" = Ok VNull
     ∧ export Reference.scores [Reference.null_score_record]
       = Throw (ZodError [Issue [] "Invalid input: expected number"])).
Proof. repeat split; vm_compute; reflexivity. Qed.

(** ** The first line of the output *)

Lemma string_app_cons x (a b : string) : (String x a ++ b = String x (a ++ b))%string.
Proof. done. Qed.

Lemma string_app_nil_l (a : string) : ("" ++ a = a)%string.
Proof. done. Qed.

Lemma string_app_assoc (a b c : string) : ((a ++ b) ++ c = a ++ b ++ c)%string.
Proof.
  induction a as [|x a IH]; [done|]. rewrite !string_app_cons. by f_equal.
Qed.

Lemma string_app_nil_r (a : string) : (a ++ "" = a)%string.
Proof.
  induction a as [|x a IH]; [done|]. rewrite string_app_cons. by f_equal.
Qed.

Lemma string_length_app (a b : string) :
  String.length (a ++ b) = (String.length a + String.length b)%nat.
Proof.
  induction a as [|x a IH]; [done|]. rewrite string_app_cons. simpl. by f_equal.
Qed.

Lemma prefix_app_self (a y : string) : String.prefix a (a ++ y) = true.
Proof.
  induction a as [|x a IH]; [by destruct y|].
  rewrite string_app_cons. simpl. by destruct (ascii_dec x x).
Qed.

Lemma prefix_app_long (a : string) : ∀ b y : string,
  (String.length a <= String.length b)%nat ->
  String.prefix a (b ++ y) = String.prefix a b.
Proof.
  induction a as [|x a IH]; intros b y Hlen.
  { destruct b; [by destruct y | done]. }
  destruct b as [|z b]; simpl in Hlen; [lia|].
  rewrite string_app_cons. simpl.
  destruct (ascii_dec x z); [|done]. apply IH. lia.
Qed.

Lemma prefix_mono (a : string) : ∀ b y : string,
  String.prefix a b = true -> String.prefix a (b ++ y) = true.
Proof.
  induction a as [|x a IH]; intros b y H.
  { destruct b; [by destruct y | done]. }
  destruct b as [|z b]; [done|].
  rewrite string_app_cons. simpl in *.
  destruct (ascii_dec x z); [by apply IH | done].
Qed.

Lemma prefix_empty (sep : string) : sep ≠ "" -> String.prefix sep "" = false.
Proof. by destruct sep. Qed.

Lemma first_segment_whole sep line :
  sep ≠ "" -> JsString.unbroken sep line = true ->
  JsString.first_segment sep line = line.
Proof.
  intros Hsep. induction line as [|c line IH]; intros H.
  - cbn [JsString.first_segment]. by rewrite prefix_empty.
  - cbn [JsString.unbroken] in H. apply andb_true_iff in H as [Hc H].
    apply negb_true_iff in Hc. cbn [JsString.first_segment].
    destruct (String.prefix sep (String c line)) eqn:Hp.
    + by rewrite (prefix_mono _ _ sep Hp) in Hc.
    + by rewrite IH.
Qed.

Lemma first_segment_app sep line rest :
  sep ≠ "" -> JsString.unbroken sep line = true ->
  JsString.first_segment sep (line ++ sep ++ rest) = line.
Proof.
  intros Hsep. induction line as [|c line IH]; intros H.
  - rewrite string_app_nil_l. pose proof (prefix_app_self sep rest) as Hp.
    destruct (sep ++ rest)%string as [|x t] eqn:E.
    + by destruct sep.
    + cbn [JsString.first_segment]. by rewrite Hp.
  - cbn [JsString.unbroken] in H. apply andb_true_iff in H as [Hc H].
    apply negb_true_iff in Hc.
    assert (String.prefix sep (String c line ++ sep ++ rest) = false) as Hp.
    { rewrite <- string_app_assoc, prefix_app_long; [exact Hc|].
      rewrite string_length_app. lia. }
    rewrite string_app_cons in Hp |- *.
    cbn [JsString.first_segment]. by rewrite Hp, IH.
Qed.

Lemma serialize_empty_rows w rows :
  is_skip (w_skipEmptyLines w) = true ->
  Forall (fun row => row = []) rows ->
  serialize w rows = "".
Proof.
  intros Hskip. induction 1 as [|row rows -> _ IH]; [done|].
  cbn [serialize]. destruct (empty_line_out _ _); [done|].
  rewrite Hskip, IH. simpl. rewrite andb_false_r. done.
Qed.

(** C4 (amended): whenever [export] returns, the first line of its output
    is the header row as the writer writes it — the schema's headers in
    schema order, each as a field, joined by the delimiter — whatever the
    records, provided the written header line is not skipped as a blank
    line and no line terminator begins within it.  It is the plain join of
    the headers when the writer leaves every header as it is. *)
Theorem export_header_line s entries csv :
  export s entries = Ok csv ->
  empty_line_out (w_skipEmptyLines (writer_settings s)) (header_row s) = false ->
  w_newline (writer_settings s) ≠ "" ->
  JsString.unbroken (w_newline (writer_settings s)) (header_line s) = true ->
  JsString.first_segment (w_newline (writer_settings s)) csv = header_line s
  ∧ (Forall (fun e : MetaEntry => safe (writer_settings s) (PStr e.1.1) = e.1.1)
            (schema s) ->
     header_line s
     = JsString.join (w_delimiter (writer_settings s))
         (map (fun e : MetaEntry => e.1.1) (schema s))).
Proof.
  intros (rows & Hrows & ->)%export_Ok Hkept Hnl Hline. split.
  - unfold Papa_unparse. fold (writer_settings s) (header_row s).
    cbn [serialize]. rewrite Hkept. fold (header_line s).
    destruct (bool_decide (rows ≠ [])
              && (negb (is_skip (w_skipEmptyLines (writer_settings s)))
                  || bool_decide (header_row s ≠ []))) eqn:Hsep.
    + by apply first_segment_app.
    + apply andb_false_iff in Hsep as [Hr|Hs].
      * apply bool_decide_eq_false in Hr.
        assert (rows = []) as -> by (by destruct rows; [|destruct Hr]).
        cbn [serialize]. rewrite string_app_nil_l, string_app_nil_r.
        by apply first_segment_whole.
      * apply orb_false_iff in Hs as [Hskip Hh].
        apply negb_false_iff in Hskip. apply bool_decide_eq_false in Hh.
        assert (schema s = []) as Hsch.
        { unfold header_row in Hh. destruct (schema s); [done|]. by destruct Hh. }
        rewrite serialize_empty_rows; [| done |].
        -- rewrite string_app_nil_l, string_app_nil_r. by apply first_segment_whole.
        -- apply export_rows_Ok in Hrows. rewrite Hsch in Hrows.
           clear -Hrows. induction Hrows as [|e row ? ? Hrow _ IH]; constructor; [|done].
           by inversion Hrow.
  - intros Hsafe. unfold header_line, header_row. f_equal.
    rewrite map_map. apply map_ext_Forall. exact Hsafe.
Qed.

Lemma export_header_line_witness :
  JsString.first_segment CRLF ("ID,Score" ++ CRLF ++ "101,95" ++ CRLF ++ "102,")
  = "ID,Score"
  ∧ "ID,Score" = JsString.join "," ["ID"; "Score"].
Proof.
  destruct (export_header_line Reference.scores Reference.scores_records
              ("ID,Score" ++ CRLF ++ "101,95" ++ CRLF ++ "102,")) as [Hfirst Hjoin].
  - vm_compute. reflexivity.
  - vm_compute. reflexivity.
  - vm_compute. discriminate.
  - vm_compute. reflexivity.
  - split; [exact Hfirst|]. apply Hjoin. repeat constructor.
Defined.

(** C4 as stated fails: a header that holds the delimiter is written
    quoted, so the first line is not the plain join of the headers. *)
Lemma export_header_line_counterexample :
  export Reference.names [] = Ok (QUOTE ++ "Last, First" ++ QUOTE ++ ",ID")
  ∧ JsString.first_segment CRLF (QUOTE ++ "Last, First" ++ QUOTE ++ ",ID")
    ≠ JsString.join "," ["Last, First"; "ID"].
Proof.
  split.
  - vm_compute. reflexivity.
  - vm_compute. intros H. inversion H.
Qed.

(** ** Round trip *)



Lemma concat_all_nil {A} (ls : list (list A)) :
  Forall (fun l => l = []) ls -> concat ls = [].
Proof. induction 1 as [|l ls -> _ IH]; simpl; done. Qed.



Lemma fill_header_fields_first th row rows :
  row ≠ [] ->
  fill_header_fields (Some th) (row :: rows) = map th row.
Proof. intros H. simpl. by destruct row. Qed.


Lemma z_decode_rows_all_ok sh rows :
  Forall (fun r => plain_object r ∧ row_issues sh r = []) rows ->
  z_decode_rows sh rows = Ok (map (fun r => p_value (z_object_run sh r)) rows).
Proof.
  intros Hrows. unfold z_decode_rows.
  rewrite z_array_run_issues by (eapply Forall_impl; [exact Hrows|]; by intros ? [? _]).
  unfold z_array_run. rewrite z_array_run_from_value.
  replace (validation_issues sh rows) with (@nil issue); [done|].
  symmetry. apply concat_all_nil, Forall_forall.
  intros l (i & r & -> & Hr)%elem_of_lookup_imap.
  rewrite Forall_lookup in Hrows. destruct (Hrows _ _ Hr) as [_ ->]. done.
Qed.






(** * Further properties of [import] and [export] *)

Lemma map_result_Throw {A B} (f : A -> result B) l ex :
  map_result f l = Throw ex ->
  ∃ i a, l !! i = Some a ∧ f a = Throw ex
         ∧ ∀ i' a', (i' < i)%nat -> l !! i' = Some a' -> ∃ b, f a' = Ok b.
Proof.
  induction l as [|a l IH]; simpl; [done|].
  destruct (f a) as [b|e] eqn:Hfa; simpl.
  - destruct (map_result f l) as [bs|e] eqn:Hl; simpl; [done|].
    intros [= ->]. destruct (IH eq_refl) as (i & a0 & Hi & Ha0 & Hbefore).
    exists (S i), a0. split_and!; [done|done|].
    intros [|i'] a' Hlt Ha'; simpl in Ha'.
    + injection Ha' as <-. eauto.
    + apply (Hbefore i'); [lia | done].
  - intros [= ->]. exists 0%nat, a. split_and!; [done|done|]. intros; lia.
Qed.

Lemma map_result_throws {A B} (f : A -> result B) l a ex :
  a ∈ l -> f a = Throw ex -> ∃ ex', map_result f l = Throw ex'.
Proof.
  induction l as [|a0 l IH]; [by intros ?%elem_of_nil|].
  intros [->|Hin]%elem_of_cons Hfa; simpl.
  - rewrite Hfa. simpl. eauto.
  - destruct (f a0); simpl; [|eauto].
    destruct (IH Hin Hfa) as [ex' ->]. simpl. eauto.
Qed.

Lemma dset_loop_Throw keys : ∀ t val ex,
  dset_loop t keys val = Throw ex -> ∃ message, ex = TypeError message.
Proof.
  induction keys as [|k keys IH]; intros t val ex; simpl; [done|].
  destruct (reserved_key k); [done|].
  destruct t as [[]|c props]; try (intros [= <-]; eauto).
  destruct keys as [|k' keys]; [done|].
  destruct (dset_loop _ (k' :: keys) val) as [child'|e] eqn:Hchild; simpl; [done|].
  intros [= <-]. by eapply IH.
Qed.

Lemma write_columns_Throw row sch : ∀ acc ex,
  (∀ e, acc = Throw e -> ∃ message, e = TypeError message) ->
  write_columns row acc sch = Throw ex -> ∃ message, ex = TypeError message.
Proof.
  induction sch as [|col sch IH]; intros acc ex Hacc; simpl.
  - intros ->. by apply Hacc.
  - apply IH. intros e. destruct acc as [obj|e0]; simpl.
    + unfold dset. apply dset_loop_Throw.
    + intros [= <-]. by apply Hacc.
Qed.

Lemma build_object_Throw sch row ex :
  build_object sch row = Throw ex -> ∃ message, ex = TypeError message.
Proof. rewrite build_object_write. by apply write_columns_Throw. Qed.

Lemma build_object_plain sch row obj :
  build_object sch row = Ok obj -> plain_object obj.
Proof.
  rewrite build_object_write. intros H.
  apply write_columns_object in H as [props ->]. by eexists.
Qed.

(** ** What [import] returns and throws *)

(** X1: when [import] returns, it returns one plain object per data row of
    the tokenizer's result, in the order of the rows, each built from the
    decoded values of its own row alone. *)
Theorem import_one_record_per_row tokenize s csv objs :
  import tokenize s csv = Ok objs ->
  length objs = length (data (Papa_parse tokenize csv (import_config (opts s))))
  ∧ Forall2
      (fun row obj =>
         build_object (schema s) (p_value (z_object_run (import_shape s) row)) = Ok obj
         ∧ plain_object obj)
      (data (Papa_parse tokenize csv (import_config (opts s)))) objs.
Proof.
  intros (_ & dec & Hdec & Hobjs)%import_Ok.
  apply z_decode_rows_Ok in Hdec as [-> _].
  change (map ?f ?l) with (f <$> l) in Hobjs.
  apply Forall2_fmap_l in Hobjs.
  split; [symmetry; by eapply Forall2_length|].
  eapply Forall2_impl; [exact Hobjs|]. intros row obj Hb. simpl in Hb.
  split; [done | by eapply build_object_plain].
Qed.

Lemma import_one_record_per_row_witness :
  length Reference.scores_records
  = length (data (Papa_parse Reference.tokenize Reference.scores_csv
                    (import_config (opts Reference.scores)))).
Proof.
  apply (import_one_record_per_row Reference.tokenize Reference.scores
           Reference.scores_csv Reference.scores_records).
  vm_compute. reflexivity.
Defined.

(** X3: under the library's parse settings, with key-paths none of which
    leads to or through another and none of which names the [length] of an
    array (a write the model of the path writer does not set apart),
    [import] returns exactly when the tokenizer reports no error and every
    cell is decoded without an issue. *)
Theorem import_returns_iff tokenize s csv :
  library_hooks (opts s) ->
  ForallOrdPairs (fun a b => incomparable (key_path a) (key_path b)) (schema s) ->
  Forall (fun col => "length" ∉ key_path col) (schema s) ->
  (∃ objs, import tokenize s csv = Ok objs)
  ↔ errors (Papa_parse tokenize csv (import_config (opts s))) = []
    ∧ validation_issues (import_shape s)
        (data (Papa_parse tokenize csv (import_config (opts s)))) = [].
Proof.
  intros (Hhdr & _)%import_config_hooks Hinc _.
  pose proof (Papa_parse_plain tokenize csv _ Hhdr) as Hplain. split.
  - intros [objs (Herr & dec & Hdec & _)%import_Ok]. split; [done|].
    apply z_decode_rows_Ok in Hdec as [_ Hi].
    by rewrite z_array_run_issues in Hi.
  - intros [Herr Hiss]. rewrite import_unfold by done. fold (import_shape s).
    unfold z_decode_rows. rewrite z_array_run_issues, Hiss by done. simpl.
    destruct (Forall2_choice (fun d obj => build_object (schema s) d = Ok obj)
                (p_value (z_array_run (z_object_run (import_shape s))
                   (data (Papa_parse tokenize csv (import_config (opts s)))))))
      as [objs Hobjs].
    { intros d _. by apply build_object_succeeds. }
    exists objs. by apply map_result_Ok.
Qed.

Lemma import_returns_iff_witness :
  (∃ objs, import Reference.tokenize Reference.scores Reference.scores_csv = Ok objs)
  ↔ errors (Papa_parse Reference.tokenize Reference.scores_csv
              (import_config (opts Reference.scores))) = []
    ∧ validation_issues (import_shape Reference.scores)
        (data (Papa_parse Reference.tokenize Reference.scores_csv
                 (import_config (opts Reference.scores)))) = [].
Proof.
  apply (import_returns_iff Reference.tokenize Reference.scores Reference.scores_csv).
  - by vm_compute.
  - repeat constructor; intros [z Hz]; vm_compute in Hz; discriminate Hz.
  - apply (bool_decide_unpack _). vm_compute. exact I.
Defined.

Lemma dset_loop_through_null r : ∀ rest t val,
  r ≠ [] -> rest ≠ [] -> unreserved (r ++ rest)%list ->
  lookup_path t r = VNull ->
  ∃ ex, dset_loop t (r ++ rest)%list val = Throw ex.
Proof.
  induction r as [|k r IH]; intros rest t val Hr Hrest Hres Hnull; [done|].
  apply Forall_cons in Hres as [Hk Hres].
  destruct t as [p|c props].
  { rewrite lookup_path_prim in Hnull by done. discriminate Hnull. }
  simpl in Hnull.
  destruct r as [|k1 r].
  - destruct rest as [|k' rest]; [done|]. simpl in Hnull.
    change ([k] ++ k' :: rest)%list with (k :: k' :: rest).
    rewrite dset_loop_step by done. rewrite Hnull.
    apply Forall_cons in Hres as [Hk' _].
    unfold next_container. simpl. rewrite Hk'. simpl. eauto.
  - change ((k :: k1 :: r) ++ rest)%list with (k :: k1 :: (r ++ rest)%list).
    rewrite dset_loop_step by done.
    destruct (default VUndef (props !! k)) as [p|c' props'] eqn:Hx.
    { rewrite lookup_path_prim in Hnull by done. discriminate Hnull. }
    change (next_container (VObj c' props') k1) with (VObj c' props').
    destruct (IH rest (VObj c' props') val) as [ex Hex]; [done|done|done|done|].
    change (k1 :: (r ++ rest)%list) with ((k1 :: r) ++ rest)%list.
    rewrite Hex. simpl. eauto.
Qed.

Lemma write_columns_fold_app row acc sch1 sch2 :
  write_columns row acc (sch1 ++ sch2)%list
  = write_columns row (write_columns row acc sch1) sch2.
Proof. unfold write_columns. by rewrite foldl_app. Qed.

Lemma write_columns_step row obj col sch :
  write_columns row (Ok obj) (col :: sch)
  = write_columns row (dset_loop obj (key_path col) (row_get row (header_of col))) sch.
Proof. done. Qed.

Lemma unreserved_prefix p q : p `prefix_of` q -> unreserved q -> unreserved p.
Proof. intros [r ->] H. by apply Forall_app in H as [H _]. Qed.

(** X4: a column whose cell decodes to [null], directly followed by a column
    whose key-path leads through the first one's, makes [import] throw a
    [TypeError]: the second write goes through the [null] the first stored. *)
Theorem import_write_below_null tokenize s csv pre colA colB post dec d :
  errors (Papa_parse tokenize csv (import_config (opts s))) = [] ->
  z_decode_rows (import_shape s)
    (data (Papa_parse tokenize csv (import_config (opts s)))) = Ok dec ->
  schema s = (pre ++ colA :: colB :: post)%list ->
  key_path colA `prefix_of` key_path colB ->
  key_path colA ≠ key_path colB ->
  unreserved (key_path colB) ->
  d ∈ dec ->
  row_get d (header_of colA) = VNull ->
  ∃ message, import tokenize s csv = Throw (TypeError message).
Proof.
  intros Herr Hdec Hsch [rest Hrest] Hne Hres Hd Hnull.
  assert (∃ ex, build_object (schema s) d = Throw ex) as [ex Hex].
  { rewrite build_object_write, Hsch, write_columns_fold_app.
    destruct (write_columns d (Ok empty_object) pre) as [obj1|e] eqn:Hpre;
      [|rewrite write_columns_throw; eauto].
    rewrite write_columns_step, Hnull.
    destruct (dset_loop obj1 (key_path colA) VNull) as [obj2|e] eqn:HA;
      [|rewrite write_columns_throw; eauto].
    apply dset_loop_get in HA;
      [|apply split_nonempty| by eapply unreserved_prefix; [eexists|]].
    rewrite write_columns_step, Hrest.
    destruct (dset_loop_through_null (key_path colA) rest obj2
                (row_get d (header_of colB))) as [ex Hex].
    - apply split_nonempty.
    - intros ->. apply Hne. by rewrite Hrest, app_nil_r.
    - by rewrite <- Hrest.
    - done.
    - rewrite Hex. rewrite write_columns_throw. eauto. }
  rewrite import_unfold by done. rewrite Hdec. simpl.
  destruct (map_result_throws _ _ _ _ Hd Hex) as [ex' Hex'].
  pose proof Hex' as Hthrow.
  apply map_result_Throw in Hex' as (i & d' & _ & Hb & _).
  apply build_object_Throw in Hb as [message ->]. eauto.
Qed.

Lemma import_write_below_null_witness :
  ∃ message,
    import Reference.tokenize Cases.below_null Cases.below_null_csv
    = Throw (TypeError message).
Proof.
  apply (import_write_below_null Reference.tokenize Cases.below_null
           Cases.below_null_csv []
           ("A", "a", Cases.z_nullable) ("B", "a.b", Reference.z_string) []
           [object_of [("A", VNull); ("B", VStr "x")]]
           (object_of [("A", VNull); ("B", VStr "x")])).
  - vm_compute. reflexivity.
  - vm_compute. reflexivity.
  - reflexivity.
  - exists ["b"]. vm_compute. reflexivity.
  - vm_compute. discriminate.
  - apply (bool_decide_unpack _). vm_compute. exact I.
  - apply list_elem_of_here.
  - vm_compute. reflexivity.
Defined.

(** ** What [export] returns and throws *)

Lemma export_cell_run e col :
  export_cell e col
  = match encode_issues e col with
    | [] => Ok (encoded_cell e col)
    | issues => Throw (ZodError issues)
    end.
Proof.
  unfold export_cell, encode_issues, encoded_cell. rewrite dlv_lookup. simpl.
  fold (key_path col). unfold encode.
  by destruct (p_issues (zt_encode col.2 (lookup_path e (key_path col)))).
Qed.

Lemma export_row_total e sch :
  Forall (fun col => encode_issues e col = []) sch ->
  map_result (export_cell e) sch = Ok (map (encoded_cell e) sch).
Proof.
  intros H. apply map_result_total. eapply Forall_impl; [exact H|].
  intros col Hcol. simpl in Hcol. by rewrite export_cell_run, Hcol.
Qed.

(** X5: [export] returns exactly when every column's type encodes the value
    at its key-path in every record without an issue; the rows handed to the
    writer are then the header row followed by one row per record, in order,
    of the encoded cells. *)
Theorem export_returns_iff s entries :
  ((∃ csv, export s entries = Ok csv)
   ↔ ∀ e col, e ∈ entries -> col ∈ schema s -> encode_issues e col = [])
  ∧ ((∀ e col, e ∈ entries -> col ∈ schema s -> encode_issues e col = []) ->
     export s entries
     = Ok (Papa_unparse
             (header_row s :: map (fun e => map (encoded_cell e) (schema s)) entries)
             (unparse (opts s)))).
Proof.
  assert ((∀ e col, e ∈ entries -> col ∈ schema s -> encode_issues e col = []) ->
          export s entries
          = Ok (Papa_unparse
                  (header_row s :: map (fun e => map (encoded_cell e) (schema s)) entries)
                  (unparse (opts s)))) as Hall.
  { intros H. apply export_Ok. eexists. split; [|reflexivity].
    unfold export_rows.
    apply (map_result_total _ (fun e => map (encoded_cell e) (schema s))).
    apply Forall_forall. intros e He. apply export_row_total.
    apply Forall_forall. intros col Hcol. by apply H. }
  split; [|exact Hall]. split.
  - intros [csv (rows & Hrows & _)%export_Ok] e col He Hcol.
    apply export_rows_Ok in Hrows.
    apply list_elem_of_lookup in He as [i He].
    destruct (Forall2_lookup_l _ _ _ _ _ Hrows He) as (row & _ & Hcells).
    apply list_elem_of_lookup in Hcol as [j Hcol].
    destruct (Forall2_lookup_l _ _ _ _ _ Hcells Hcol) as (cell & _ & Hcell).
    rewrite export_cell_run in Hcell. by destruct (encode_issues e col).
  - intros H. eexists. by apply Hall.
Qed.

Lemma export_returns_iff_witness :
  export Reference.scores Reference.scores_records
  = Ok (Papa_unparse
          (header_row Reference.scores
           :: map (fun e => map (encoded_cell e) (schema Reference.scores))
                Reference.scores_records)
          (unparse (opts Reference.scores))).
Proof.
  apply (export_returns_iff Reference.scores Reference.scores_records).
  intros e col He Hcol.
  apply elem_of_cons in He as [->|He];
    [|apply elem_of_cons in He as [->|He]; [|by apply elem_of_nil in He]];
    (apply elem_of_cons in Hcol as [->|Hcol];
     [|apply elem_of_cons in Hcol as [->|Hcol]; [|by apply elem_of_nil in Hcol]]);
    vm_compute; reflexivity.
Defined.

Lemma map_result_first_throw {A B} (f : A -> result B) l : ∀ i a ex,
  l !! i = Some a -> f a = Throw ex ->
  (∀ i' a', (i' < i)%nat -> l !! i' = Some a' -> ∃ b, f a' = Ok b) ->
  map_result f l = Throw ex.
Proof.
  induction l as [|a0 l IH]; intros i a ex Hi Hfa Hbefore; [done|].
  destruct i as [|i]; simpl in Hi.
  - injection Hi as ->. simpl. by rewrite Hfa.
  - destruct (Hbefore 0%nat a0) as [b Hb]; [lia|done|]. simpl. rewrite Hb. simpl.
    rewrite (IH i a ex Hi Hfa); [done|].
    intros i' a' Hlt Ha'. apply (Hbefore (S i') a'); [lia | done].
Qed.

(** X6: when a cell's type reports an issue on encoding, every cell before
    it (records in order, columns in schema order) being encoded without
    one, [export] throws a validation error holding the issues of that cell
    and nothing more: the cells after it play no part, and the issues are as
    the type gave them, nothing telling the record or the column. *)
Theorem export_first_failure s entries i e j col :
  entries !! i = Some e ->
  schema s !! j = Some col ->
  encode_issues e col ≠ [] ->
  (∀ j' col', (j' < j)%nat -> schema s !! j' = Some col' ->
     encode_issues e col' = []) ->
  (∀ i' e' col', (i' < i)%nat -> entries !! i' = Some e' -> col' ∈ schema s ->
     encode_issues e' col' = []) ->
  export s entries = Throw (ZodError (encode_issues e col)).
Proof.
  intros He Hcol Hfail Hleft Hbefore.
  assert (export_rows s entries = Throw (ZodError (encode_issues e col))) as Hrows.
  { unfold export_rows. apply (map_result_first_throw _ _ i e); [done| |].
    - apply (map_result_first_throw _ _ j col); [done| |].
      + rewrite export_cell_run. by destruct (encode_issues e col).
      + intros j' col' Hlt Hcol'. rewrite export_cell_run.
        rewrite (Hleft j' col' Hlt Hcol'). eauto.
    - intros i' e' Hlt He'. exists (map (encoded_cell e') (schema s)).
      apply export_row_total, Forall_forall. intros col' Hin.
      by apply (Hbefore i' e' col'). }
  unfold export. by rewrite Hrows.
Qed.

Lemma export_first_failure_witness :
  export Reference.scores [Reference.scoreless_record; Reference.partial_record]
  = Throw (ZodError (encode_issues Reference.partial_record
                       ("ID", "id", Reference.z_string))).
Proof.
  apply (export_first_failure Reference.scores
           [Reference.scoreless_record; Reference.partial_record]
           1 Reference.partial_record 0 ("ID", "id", Reference.z_string)).
  - reflexivity.
  - reflexivity.
  - vm_compute. discriminate.
  - intros j' col' Hlt. lia.
  - intros i' e' col' Hlt He' Hcol'.
    destruct i' as [|i']; [|lia]. injection He' as <-.
    apply elem_of_cons in Hcol' as [->|Hcol']; [vm_compute; reflexivity|].
    apply elem_of_cons in Hcol' as [->|Hcol']; [vm_compute; reflexivity|].
    by apply elem_of_nil in Hcol'.
Defined.

(** X7: the rows [export] hands to the writer are as many as the records,
    each with one cell per column of the schema, and no cell is [undefined]
    or [null]. *)
Theorem export_rows_shape s entries rows :
  export_rows s entries = Ok rows ->
  length rows = length entries
  ∧ Forall (fun row => length row = length (schema s)
                       ∧ Forall (fun cell => prim_nullish cell = false) row) rows.
Proof.
  intros Hrows%export_rows_Ok. split; [symmetry; by eapply Forall2_length|].
  apply Forall_forall. intros row [i Hi]%list_elem_of_lookup.
  destruct (Forall2_lookup_r _ _ _ _ _ Hrows Hi) as (e & _ & Hcells).
  split; [symmetry; by eapply Forall2_length|].
  apply Forall_forall. intros cell [j Hj]%list_elem_of_lookup.
  destruct (Forall2_lookup_r _ _ _ _ _ Hcells Hj) as (col & _ & Hcell).
  apply export_cell_Ok in Hcell as (c & _ & ->). by destruct c.
Qed.

Lemma export_rows_shape_witness :
  length [[PStr "101"; PStr "95"]; [PStr "102"; PStr ""]]
  = length Reference.scores_records.
Proof.
  apply (export_rows_shape Reference.scores Reference.scores_records
           [[PStr "101"; PStr "95"]; [PStr "102"; PStr ""]]).
  vm_compute. reflexivity.
Defined.

Lemma export_row_ext e e' sch :
  Forall (fun col => lookup_path e (key_path col) = lookup_path e' (key_path col)) sch ->
  map_result (export_cell e) sch = map_result (export_cell e') sch.
Proof.
  induction 1 as [|col sch Hcol _ IH]; [done|]. cbn [map_result]. rewrite IH.
  rewrite !export_cell_run. unfold encode_issues, encoded_cell. by rewrite Hcol.
Qed.

(** X8: [export] reads a record at the key-paths of the schema and nowhere
    else: records that agree there, whatever else they hold, give the same
    result. *)
Theorem export_reads_key_paths s entries entries' :
  Forall2 (fun e e' =>
             Forall (fun col => lookup_path e (key_path col)
                                = lookup_path e' (key_path col)) (schema s))
          entries entries' ->
  export s entries = export s entries'.
Proof.
  intros H.
  assert (export_rows s entries = export_rows s entries') as Hrows.
  { unfold export_rows.
    induction H as [|e e' es es' He _ IH]; [done|]. cbn [map_result]. rewrite IH.
    by rewrite (export_row_ext e e' (schema s)). }
  unfold export. by rewrite Hrows.
Qed.

Lemma export_reads_key_paths_witness :
  export Reference.scores [Cases.wider_record]
  = export Reference.scores [Cases.narrow_record].
Proof.
  apply (export_reads_key_paths Reference.scores
           [Cases.wider_record] [Cases.narrow_record]).
  repeat constructor.
Defined.

Lemma join_cons sep x y l :
  JsString.join sep (x :: y :: l) = x ++ sep ++ JsString.join sep (y :: l).
Proof. done. Qed.

Lemma serialize_lines w rows :
  w_skipEmptyLines w = SkipNone ->
  serialize w rows = JsString.join (w_newline w) (map (written_line w) rows).
Proof.
  intros Hmode. induction rows as [|row rows IH]; [done|].
  cbn [serialize]. rewrite Hmode. cbn [empty_line_out is_skip negb orb].
  rewrite andb_true_r. fold (written_line w row). rewrite IH.
  destruct rows as [|row' rows].
  - rewrite bool_decide_eq_false_2 by (intros H; by apply H).
    unfold JsString.join. cbn [map String.concat].
    by rewrite string_app_nil_l, string_app_nil_r.
  - rewrite bool_decide_eq_true_2 by done. cbn [map]. by rewrite join_cons.
Qed.

(** X9: with the writer's blank-line skipping off, as it is unless
    [opts.unparse] turns it on, the text [export] returns is the header line
    and one line per record, in order, joined by the line terminator: no
    terminator follows the last line, and no records leave the header line
    alone. *)
Theorem export_lines s entries csv :
  w_skipEmptyLines (writer_settings s) = SkipNone ->
  export s entries = Ok csv ->
  ∃ rows,
    export_rows s entries = Ok rows
    ∧ csv = JsString.join (w_newline (writer_settings s))
              (header_line s :: map (written_line (writer_settings s)) rows).
Proof.
  intros Hmode (rows & Hrows & ->)%export_Ok. exists rows. split; [done|].
  unfold Papa_unparse. fold (writer_settings s). by rewrite serialize_lines.
Qed.

Lemma export_lines_witness :
  ∃ rows,
    export_rows Reference.scores Reference.scores_records = Ok rows
    ∧ "ID,Score" ++ CRLF ++ "101,95" ++ CRLF ++ "102,"
      = JsString.join (w_newline (writer_settings Reference.scores))
          (header_line Reference.scores
           :: map (written_line (writer_settings Reference.scores)) rows).
Proof.
  apply (export_lines Reference.scores Reference.scores_records).
  - reflexivity.
  - vm_compute. reflexivity.
Defined.

(** ** Edges of [import] *)

Lemma array_rows_issues sh rows : ∀ i,
  Forall (fun r => ¬ plain_object r) rows ->
  p_issues (z_array_run_from i (z_object_run sh) rows)
  = imap (fun j _ => not_an_object (i + j)) rows.
Proof.
  induction rows as [|r rows IH]; intros i Hrows; [done|].
  apply Forall_cons in Hrows as [Hr Hrows]. cbn [z_array_run_from p_issues imap].
  rewrite IH by done. rewrite Nat.add_0_r.
  assert (p_issues (z_object_run sh r) = [Issue [] "Invalid input: expected object"])
    as ->.
  { destruct r as [p|[] m]; [done| |done]. destruct Hr. by eexists. }
  simpl. f_equal. apply imap_ext. intros j x _. simpl. by rewrite Nat.add_succ_r.
Qed.

(** X10: with header mode turned off through [opts.parse], the rows reach
    validation as arrays, which the object schema refuses: [import] of a text
    with any row throws a validation error with one issue per row, and never
    returns a record. *)
Theorem import_header_off tokenize s csv :
  header (import_config (opts s)) = false ->
  errors (Papa_parse tokenize csv (import_config (opts s))) = [] ->
  import tokenize s csv
  = match data (Papa_parse tokenize csv (import_config (opts s))) with
    | [] => Ok []
    | rows => Throw (ZodError (imap (fun i _ => not_an_object i) rows))
    end.
Proof.
  intros Hhdr Herr. rewrite import_unfold by done.
  assert (Forall (fun r => ¬ plain_object r)
            (data (Papa_parse tokenize csv (import_config (opts s))))) as Hrows.
  { unfold Papa_parse. rewrite Hhdr. cbn [data].
    apply Forall_forall. intros r (cells & <- & _)%list_elem_of_In%in_map_iff.
    unfold process_row. rewrite Hhdr. by intros [props Hprops]. }
  unfold z_decode_rows, z_array_run. cbv zeta.
  rewrite (array_rows_issues _ _ 0 Hrows).
  by destruct (data (Papa_parse tokenize csv (import_config (opts s)))).
Qed.

Lemma import_header_off_witness :
  import Reference.tokenize Cases.headerless Cases.headerless_csv
  = Throw (ZodError [not_an_object 0; not_an_object 1]).
Proof.
  rewrite (import_header_off Reference.tokenize Cases.headerless Cases.headerless_csv).
  - vm_compute. reflexivity.
  - vm_compute. reflexivity.
  - vm_compute. reflexivity.
Defined.

(** X11: a serializer without columns validates nothing and writes nothing:
    [import] returns one empty object per data row, and [export] never throws
    and hands the writer one empty row per record under an empty header
    row. *)
Theorem empty_schema tokenize s csv entries :
  schema s = [] ->
  header (import_config (opts s)) = true ->
  errors (Papa_parse tokenize csv (import_config (opts s))) = [] ->
  import tokenize s csv
  = Ok (map (fun _ => empty_object)
          (data (Papa_parse tokenize csv (import_config (opts s)))))
  ∧ export s entries
    = Ok (Papa_unparse ([] :: map (fun _ => []) entries) (unparse (opts s))).
Proof.
  intros Hsch Hhdr Herr. split.
  - rewrite import_unfold by done. unfold import_shape. rewrite Hsch. simpl from_entries.
    rewrite z_decode_rows_all_ok.
    + simpl. rewrite (map_result_total _ (fun _ => empty_object)).
      * by rewrite map_map.
      * by apply Forall_forall.
    + eapply Forall_impl; [by apply Papa_parse_plain|]. by intros r Hr.
  - unfold export, export_rows. rewrite Hsch.
    by rewrite (map_result_total _ (fun _ => [])) by by apply Forall_forall.
Qed.

Lemma empty_schema_witness :
  import Reference.tokenize Cases.bare Reference.scores_csv
  = Ok [empty_object; empty_object]
  ∧ export Cases.bare Reference.scores_records = Ok (CRLF ++ CRLF).
Proof.
  destruct (empty_schema Reference.tokenize Cases.bare Reference.scores_csv
              Reference.scores_records) as [Himp Hexp].
  - reflexivity.
  - reflexivity.
  - vm_compute. reflexivity.
  - split.
    + rewrite Himp. vm_compute. reflexivity.
    + rewrite Hexp. vm_compute. reflexivity.
Defined.

Lemma skip_all_blank rows :
  Forall (fun r => r = [""]) rows ->
  filter (fun row => test_empty_line SkipEmpty row = false) rows = [].
Proof.
  induction 1 as [|r rows -> _ IH]; [done|].
  rewrite filter_cons_False; [done|]. by vm_compute.
Qed.

(** X12: a text whose rows after the first are all blank lines has no data
    row: under the library's settings [import] returns the empty list,
    whatever the schema requires and whatever the header line holds. *)
Theorem import_no_data_rows tokenize s csv :
  library_hooks (opts s) ->
  raw_errors (tokenize (import_config (opts s)) csv) = [] ->
  Forall (fun r => r = [""]) (tail (raw_data (tokenize (import_config (opts s)) csv))) ->
  import tokenize s csv = Ok [].
Proof.
  intros (Hhdr & Hskip & _)%import_config_hooks Hraw Hblank.
  destruct (Papa_parse_header tokenize csv _ Hhdr) as [Hdata Herrors].
  rewrite Hskip in Hdata, Herrors. cbn [skip_blank_lines] in Hdata, Herrors.
  assert (tail (filter (fun row => test_empty_line SkipEmpty row = false)
                  (raw_data (tokenize (import_config (opts s)) csv))) = []) as Htail.
  { destruct (raw_data _) as [|hdr rest]; [done|]. cbn [tail] in Hblank.
    destruct (decide (test_empty_line SkipEmpty hdr = false)).
    - rewrite filter_cons_True by done. cbn [tail]. by apply skip_all_blank.
    - rewrite filter_cons_False by done. by rewrite skip_all_blank. }
  rewrite Htail in Hdata, Herrors. rewrite Hraw in Herrors.
  rewrite import_unfold by done. by rewrite Hdata.
Qed.

Lemma import_no_data_rows_witness :
  import Reference.tokenize Reference.scores Cases.blank_csv = Ok [].
Proof.
  apply (import_no_data_rows Reference.tokenize Reference.scores Cases.blank_csv).
  - by vm_compute.
  - reflexivity.
  - vm_compute. repeat constructor.
Defined.

(** ** Headers the text does not have *)

Lemma process_row_missing cfg fields cells h :
  header cfg = true ->
  h ∉ fields ->
  (length cells ≤ length fields)%nat ∨ h ≠ "__parsed_extra" ->
  get_own (process_row cfg fields cells) h = VUndef.
Proof.
  intros Hhdr Hh Hextra. unfold process_row. rewrite Hhdr. cbn [get_own].
  assert (fold_left (fun row fc => <[fc.1 := fc.2]> row)
            (zip fields (map (apply_transform cfg) cells)) (∅ : gmap string value) !! h
          = None) as Hrow.
  { rewrite insert_all_other; [apply lookup_empty|].
    intros ([k v] & -> & Hin%elem_of_zip_l)%list_elem_of_fmap. by apply Hh. }
  rewrite length_map.
  destruct (Nat.ltb_spec (length fields) (length cells)) as [Hlt|Hge].
  - destruct Hextra as [Hle|Hne]; [lia|].
    by rewrite lookup_insert_ne, Hrow.
  - by rewrite Hrow.
Qed.

Lemma data_rows_well_formed tokenize csv cfg :
  header cfg = true ->
  errors (Papa_parse tokenize csv cfg) = [] ->
  let rows := skip_blank_lines (skipEmptyLines cfg) (raw_data (tokenize cfg csv)) in
  let fields := fill_header_fields (transformHeader cfg) rows in
  Forall (fun cells => length cells = length fields) (tail rows).
Proof.
  intros Hhdr Herr rows fields.
  destruct (Papa_parse_header tokenize csv cfg Hhdr) as [_ Herrs].
  rewrite Herr in Herrs. symmetry in Herrs. apply app_eq_nil in Herrs as [_ Hmis].
  apply Forall_lookup. intros i cells Hi.
  eapply field_mismatch_nil, (concat_nil_inv _ _ Hmis).
  by apply elem_of_lookup_imap_2.
Qed.

(** X13: a header of the schema that is none of the header fields of the
    text reads absent in every data row, and nothing else tells that the
    column is missing: when the column's type refuses an absent value and the
    text has a data row, [import] throws a validation error with an issue at
    that column in every row. *)
Theorem import_missing_header tokenize s csv h zt :
  header (import_config (opts s)) = true ->
  errors (Papa_parse tokenize csv (import_config (opts s))) = [] ->
  shape_get (import_shape s) h = Some zt ->
  h ∉ fill_header_fields (transformHeader (import_config (opts s)))
        (skip_blank_lines (skipEmptyLines (import_config (opts s)))
           (raw_data (tokenize (import_config (opts s)) csv))) ->
  Forall (fun row => get_own row h = VUndef)
         (data (Papa_parse tokenize csv (import_config (opts s))))
  ∧ (p_issues (zt_decode zt VUndef) ≠ [] ->
     data (Papa_parse tokenize csv (import_config (opts s))) ≠ [] ->
     ∃ issues,
       import tokenize s csv = Throw (ZodError issues)
       ∧ ∀ i, (i < length (data (Papa_parse tokenize csv (import_config (opts s)))))%nat ->
              ∃ iss, iss ∈ issues ∧ located i h iss).
Proof.
  intros Hhdr Herr Hzt Hh.
  pose proof (data_rows_well_formed tokenize csv _ Hhdr Herr) as Hlen.
  destruct (Papa_parse_header tokenize csv _ Hhdr) as [Hdata _]. cbv zeta in Hlen, Hdata.
  assert (Forall (fun row => get_own row h = VUndef)
            (data (Papa_parse tokenize csv (import_config (opts s))))) as Habsent.
  { rewrite Hdata. apply Forall_forall.
    intros row (cells & <- & Hin%list_elem_of_In)%list_elem_of_In%in_map_iff.
    rewrite Forall_forall in Hlen.
    apply process_row_missing; [done|done|]. left. by rewrite (Hlen _ Hin). }
  split; [done|]. intros Hrefuse Hrows.
  destruct (p_issues (zt_decode zt VUndef)) as [|iss0 rest] eqn:Hiss; [done|].
  assert (∀ i, (i < length (data (Papa_parse tokenize csv (import_config (opts s)))))%nat ->
            ∃ iss, iss ∈ validation_issues (import_shape s)
                           (data (Papa_parse tokenize csv (import_config (opts s))))
                   ∧ located i h iss) as Hall.
  { intros i [row Hrow]%lookup_lt_is_Some_2.
    exists (Issue (Index i :: Key h :: issue_path iss0) (issue_message iss0)).
    split; [|by eexists].
    apply elem_of_validation_issues. exists i, row, (h, zt), iss0.
    split_and!; [done| by apply shape_get_Some | | done].
    rewrite Forall_lookup in Habsent. cbn [fst snd].
    rewrite (Habsent _ _ Hrow), Hiss. apply list_elem_of_here. }
  exists (validation_issues (import_shape s)
            (data (Papa_parse tokenize csv (import_config (opts s))))).
  split; [|done]. rewrite import_unfold by done.
  rewrite z_decode_rows_Throw; [done | by apply Papa_parse_plain |].
  destruct (data (Papa_parse tokenize csv (import_config (opts s)))) as [|r rs] eqn:Hd;
    [done|].
  destruct (Hall 0%nat) as (iss & Hin & _); [simpl; lia|].
  intros Hnil. rewrite Hnil in Hin. by apply elem_of_nil in Hin.
Qed.

Lemma import_missing_header_witness :
  ∃ issues,
    import Reference.tokenize Reference.people Cases.lacking_csv
    = Throw (ZodError issues)
    ∧ ∃ iss, iss ∈ issues ∧ located 0 "Name" iss.
Proof.
  destruct (import_missing_header Reference.tokenize Reference.people
              Cases.lacking_csv "Name" Reference.z_string) as [_ Hthrow].
  - reflexivity.
  - vm_compute. reflexivity.
  - vm_compute. reflexivity.
  - apply (bool_decide_unpack _). vm_compute. exact I.
  - destruct Hthrow as (issues & Himp & Hall).
    + vm_compute. discriminate.
    + vm_compute. discriminate.
    + exists issues. split; [exact Himp|]. apply (Hall 0%nat). vm_compute. lia.
Defined.

Lemma string_rev_app_spec (a b : string) :
  String.rev_app a b = String.rev a ++ b.
Proof.
  unfold String.rev. revert b. induction a as [|x a IH]; intros b; [done|].
  cbn [String.rev_app]. rewrite (IH (String x b)), (IH (String x "")).
  by rewrite string_app_assoc, string_app_cons, string_app_nil_l.
Qed.

Lemma string_rev_cons x (s : string) :
  String.rev (String x s) = String.rev s ++ String x "".
Proof. unfold String.rev at 1. cbn [String.rev_app]. apply string_rev_app_spec. Qed.

Lemma string_rev_app (a b : string) :
  String.rev (a ++ b) = String.rev b ++ String.rev a.
Proof.
  induction a as [|x a IH].
  - rewrite string_app_nil_l. by rewrite string_app_nil_r.
  - rewrite string_app_cons, !string_rev_cons. by rewrite IH, string_app_assoc.
Qed.

Lemma string_rev_involutive (s : string) : String.rev (String.rev s) = s.
Proof.
  induction s as [|x s IH]; [done|]. rewrite string_rev_cons, string_rev_app, IH.
  by rewrite string_rev_cons, string_app_nil_l, string_app_cons, string_app_nil_l.
Qed.

Lemma skip_spaces_fixed r s :
  leading_space r s = false -> JsString.skip_spaces r s = s.
Proof.
  destruct s as [|a [|b [|c s3]]]; cbn [leading_space JsString.skip_spaces]; [done|..].
  - rewrite orb_false_r. by intros ->.
  - rewrite orb_false_r. by intros [-> ->]%orb_false_iff.
  - by intros [-> [-> ->]%orb_false_iff]%orb_false_iff.
Qed.

Lemma skip_spaces_leading r : ∀ n s,
  (String.length s ≤ n)%nat -> leading_space r (JsString.skip_spaces r s) = false.
Proof.
  induction n as [|n IH]; intros s Hn.
  { destruct s; [done | simpl in Hn; lia]. }
  destruct s as [|a s1]; [done|]. cbn [String.length] in Hn.
  cbn [JsString.skip_spaces].
  destruct (JsString.one_byte_space a) eqn:H1; [apply IH; lia|].
  destruct s1 as [|b s2].
  { cbn [leading_space]. by rewrite H1. }
  cbn [String.length] in Hn.
  destruct (JsString.space2 r a b) eqn:H2; [apply IH; lia|].
  destruct s2 as [|c s3].
  { cbn [leading_space]. by rewrite H1, H2. }
  cbn [String.length] in Hn.
  destruct (JsString.space3 r a b c) eqn:H3; [apply IH; lia|].
  cbn [leading_space]. by rewrite H1, H2, H3.
Qed.

Lemma skip_spaces_idem r s :
  JsString.skip_spaces r (JsString.skip_spaces r s) = JsString.skip_spaces r s.
Proof. apply skip_spaces_fixed. by apply (skip_spaces_leading r (String.length s)). Qed.

Lemma skip_spaces_suffix r : ∀ n s,
  (String.length s ≤ n)%nat -> ∃ p, s = p ++ JsString.skip_spaces r s.
Proof.
  induction n as [|n IH]; intros s Hn.
  { destruct s; [by exists "" | simpl in Hn; lia]. }
  destruct s as [|a s1]; [by exists ""|]. cbn [String.length] in Hn.
  cbn [JsString.skip_spaces].
  destruct (JsString.one_byte_space a).
  { destruct (IH s1) as [p Hp]; [lia|]. exists (String a p).
    rewrite string_app_cons. by f_equal. }
  destruct s1 as [|b s2]; [by exists ""|]. cbn [String.length] in Hn.
  destruct (JsString.space2 r a b).
  { destruct (IH s2) as [p Hp]; [lia|]. exists (String a (String b p)).
    rewrite !string_app_cons. by do 2 f_equal. }
  destruct s2 as [|c s3]; [by exists ""|]. cbn [String.length] in Hn.
  destruct (JsString.space3 r a b c); [|by exists ""].
  destruct (IH s3) as [p Hp]; [lia|]. exists (String a (String b (String c p))).
  rewrite !string_app_cons. by do 3 f_equal.
Qed.

Lemma leading_space_app r t p :
  leading_space r t = true -> leading_space r (t ++ p) = true.
Proof.
  destruct t as [|a [|b [|c t3]]]; [done|..];
    rewrite ?string_app_cons, ?string_app_nil_l; cbn [leading_space].
  - rewrite orb_false_r. by intros ->.
  - rewrite orb_false_r. intros [->| ->]%orb_true_iff; [done|].
    by rewrite orb_true_r.
  - done.
Qed.

(** Trimming twice is trimming once. *)
Lemma trim_idem s : JsString.trim (JsString.trim s) = JsString.trim s.
Proof.
  unfold JsString.trim, JsString.trim_end, JsString.trim_start.
  set (u := JsString.skip_spaces false s).
  set (v := JsString.skip_spaces true (String.rev u)).
  assert (JsString.skip_spaces false (String.rev v) = String.rev v) as ->.
  { apply skip_spaces_fixed.
    destruct (leading_space false (String.rev v)) eqn:Hlead; [|done].
    destruct (skip_spaces_suffix true _ (String.rev u) (le_n _)) as [p Hp].
    fold v in Hp. apply (f_equal String.rev) in Hp.
    rewrite string_rev_involutive, string_rev_app in Hp.
    pose proof (skip_spaces_leading false _ s (le_n _)) as Hu. fold u in Hu.
    rewrite Hp in Hu. by rewrite leading_space_app in Hu. }
  rewrite string_rev_involutive. unfold v. by rewrite skip_spaces_idem.
Qed.

(** X14: the header fields of the text are trimmed, the headers of the
    schema are not: under the library's settings, for a text whose first
    line holds the header names (it is not a blank line), a schema header
    with white space at either end is none of the header fields, and reads
    absent in every data row. *)
Theorem import_padded_header tokenize s csv h hdr rest :
  library_hooks (opts s) ->
  raw_data (tokenize (import_config (opts s)) csv) = hdr :: rest ->
  hdr ≠ [] ->
  hdr ≠ [""] ->
  JsString.trim h ≠ h ->
  (h ∉ map JsString.trim hdr)
  ∧ Forall (fun row => get_own row h = VUndef)
           (data (Papa_parse tokenize csv (import_config (opts s)))).
Proof.
  intros (Hhdr & Hskip & Hth & _)%import_config_hooks Hraw Hcells Hblank Hpad.
  assert (h ∉ map JsString.trim hdr) as Hout.
  { intros (x & Hx & _)%list_elem_of_In%in_map_iff. apply Hpad.
    by rewrite <- Hx, trim_idem. }
  split; [done|].
  destruct (Papa_parse_header tokenize csv _ Hhdr) as [Hdata _]. cbv zeta in Hdata.
  rewrite Hskip, Hth, Hraw in Hdata. cbn [skip_blank_lines] in Hdata.
  rewrite filter_cons_True in Hdata.
  2:{ destruct hdr as [|c [|c' hdr']]; [done| |done]. cbn [test_empty_line].
      destruct (String.eqb_spec c ""); [by subst|done]. }
  rewrite fill_header_fields_first in Hdata by done.
  rewrite Hdata. apply Forall_forall.
  intros row (cells & <- & _)%list_elem_of_In%in_map_iff.
  apply process_row_missing; [done|done|].
  right. intros ->. by apply Hpad.
Qed.

Lemma import_padded_header_witness :
  Forall (fun row => get_own row " ID" = VUndef)
         (data (Papa_parse Reference.tokenize Cases.padded_csv
                  (import_config (opts Cases.padded)))).
Proof.
  apply (import_padded_header Reference.tokenize Cases.padded Cases.padded_csv " ID"
           [" ID"; "Score"] [["101"; "95"]]).
  - by vm_compute.
  - vm_compute. reflexivity.
  - discriminate.
  - discriminate.
  - vm_compute. discriminate.
Defined.

(** ** The shape of an imported record *)

Lemma dset_loop_keys c props keys val c' props' :
  dset_loop (VObj c props) keys val = Ok (VObj c' props') ->
  ∀ k0, is_Some (props' !! k0)
        ↔ is_Some (props !! k0) ∨ (head keys = Some k0 ∧ reserved_key k0 = false).
Proof.
  intros Hset k0. destruct keys as [|k keys].
  { injection Hset as <- <-. cbn [head]. split; [by left|]. by intros [?|[[=] _]]. }
  cbn [head]. destruct (reserved_key k) eqn:Hk.
  { rewrite dset_loop_reserved in Hset by done. injection Hset as <- <-.
    split; [by left|]. intros [?|[[= ->] Hk0]]; [done | congruence]. }
  assert (∃ x, props' = <[k := x]> props) as [x ->].
  { destruct keys as [|k' keys].
    - rewrite dset_loop_last in Hset by done. injection Hset as <- <-. eauto.
    - rewrite dset_loop_step in Hset by done.
      apply bind_Ok in Hset as (child' & _ & [= <- <-]). eauto. }
  rewrite lookup_insert_is_Some. split.
  - intros [<-|[_ H]]; [right | left]; done.
  - intros [H|[[= <-] _]]; [|by left].
    destruct (decide (k = k0)); [by left | by right].
Qed.

Lemma write_columns_keys row sch : ∀ c props c' props',
  write_columns row (Ok (VObj c props)) sch = Ok (VObj c' props') ->
  ∀ k0, is_Some (props' !! k0)
        ↔ is_Some (props !! k0)
          ∨ ∃ col, col ∈ sch ∧ head (key_path col) = Some k0 ∧ reserved_key k0 = false.
Proof.
  induction sch as [|col sch IH]; intros c props c' props' Hw k0.
  - injection Hw as <- <-. split; [by left|].
    intros [H|(col & Hin%elem_of_nil & _)]; done.
  - apply write_columns_cons in Hw as (obj1 & Hset & Hrest).
    destruct (dset_loop_object _ _ _ _ _ Hset) as [props1 ->].
    rewrite (IH _ _ _ _ Hrest), (dset_loop_keys _ _ _ _ _ _ Hset). split.
    + intros [[H|[Hh Hk]]|(col' & Hin & Hh & Hk)]; [by left| |].
      * right. exists col. split; [apply list_elem_of_here | done].
      * right. exists col'. split; [by apply list_elem_of_further | done].
    + intros [H|(col' & [->|Hin]%elem_of_cons & Hh & Hk)].
      * left. by left.
      * left. by right.
      * right. eauto.
Qed.

(** X15: every record [import] returns is a plain object whose own
    properties are exactly the first segments of the schema's key-paths,
    those on which the path writer stops ([__proto__], [constructor],
    [prototype]) apart: a column is present even when its value is
    [undefined], and nothing of the text beyond the schema shows. *)
Theorem import_top_level_keys tokenize s csv objs :
  import tokenize s csv = Ok objs ->
  Forall (fun obj =>
            ∃ props, obj = VObj Plain props
              ∧ ∀ k, is_Some (props !! k)
                     ↔ ∃ col, col ∈ schema s ∧ head (key_path col) = Some k
                              ∧ reserved_key k = false)
         objs.
Proof.
  intros (_ & dec & _ & Hobjs)%import_Ok.
  apply Forall_forall. intros obj [i Hi]%list_elem_of_lookup.
  destruct (Forall2_lookup_r _ _ _ _ _ Hobjs Hi) as (d & _ & Hbuild).
  rewrite build_object_write in Hbuild.
  destruct (write_columns_object _ _ _ _ _ Hbuild) as [props ->].
  exists props. split; [done|]. intros k.
  rewrite (write_columns_keys _ _ _ _ _ _ Hbuild k), lookup_empty.
  split; [intros [[? [=]]|H]; done | by right].
Qed.

Lemma import_top_level_keys_witness :
  Forall (fun obj =>
            ∃ props, obj = VObj Plain props
              ∧ ∀ k, is_Some (props !! k)
                     ↔ ∃ col, col ∈ schema Reference.scores
                              ∧ head (key_path col) = Some k
                              ∧ reserved_key k = false)
         Reference.scores_records.
Proof.
  apply (import_top_level_keys Reference.tokenize Reference.scores
           Reference.scores_csv Reference.scores_records).
  vm_compute. reflexivity.
Defined.

Lemma shape_set_elem sh k zt e : e ∈ shape_set sh k zt -> e ∈ sh ∨ e = (k, zt).
Proof.
  induction sh as [|[k' zt'] sh IH]; simpl.
  - intros ->%list_elem_of_singleton. by right.
  - destruct (String.eqb_spec k' k) as [->|Hne].
    + intros [->|Hin]%elem_of_cons; [by right|]. left. by apply list_elem_of_further.
    + intros [->|Hin]%elem_of_cons; [left; apply list_elem_of_here|].
      destruct (IH Hin) as [?|?]; [left; by apply list_elem_of_further | by right].
Qed.

Lemma from_entries_elem entries e : e ∈ from_entries entries -> e ∈ entries.
Proof.
  unfold from_entries.
  assert (∀ sh, e ∈ fold_left (fun sh e => shape_set sh e.1 e.2) entries sh ->
                e ∈ sh ∨ e ∈ entries) as H.
  { induction entries as [|[k zt] entries IH]; intros sh; simpl; [by left|].
    intros [[?| ->]%shape_set_elem|?]%IH.
    - by left.
    - right. apply list_elem_of_here.
    - right. by apply list_elem_of_further. }
  intros [?%elem_of_nil|?]%H; done.
Qed.

Lemma shape_set_key sh k zt k' :
  k' ∈ (shape_set sh k zt).*1 ↔ k' ∈ sh.*1 ∨ k' = k.
Proof.
  destruct (decide (k ∈ sh.*1)) as [Hin|Hout].
  - rewrite shape_set_keys by done. split; [by left | by intros [?| ->]].
  - rewrite shape_set_fresh by done. rewrite fmap_app, elem_of_app. simpl.
    by rewrite list_elem_of_singleton.
Qed.

Lemma from_entries_key entries k : k ∈ entries.*1 -> k ∈ (from_entries entries).*1.
Proof.
  unfold from_entries.
  assert (∀ sh, k ∈ sh.*1 ∨ k ∈ entries.*1 ->
                k ∈ (fold_left (fun sh e => shape_set sh e.1 e.2) entries sh).*1) as H.
  { induction entries as [|[k1 zt] entries IH]; intros sh; simpl.
    - by intros [?|?%elem_of_nil].
    - intros [Hin|[->|Hin]%elem_of_cons]; apply IH.
      + left. apply shape_set_key. by left.
      + left. apply shape_set_key. by right.
      + by right. }
  intros Hk. apply H. by right.
Qed.

Lemma import_shape_elem s h zt :
  (h, zt) ∈ import_shape s -> ∃ col, col ∈ schema s ∧ header_of col = h ∧ col.2 = zt.
Proof.
  intros (col & [= <- <-] & Hin%list_elem_of_In)%from_entries_elem%list_elem_of_In%in_map_iff.
  by exists col.
Qed.

Lemma import_shape_key s col :
  col ∈ schema s -> ∃ zt, (header_of col, zt) ∈ import_shape s.
Proof.
  intros Hcol.
  assert (header_of col ∈ (import_shape s).*1) as Hk.
  { apply from_entries_key, list_elem_of_fmap.
    exists (header_of col, col.2). split; [done|].
    apply list_elem_of_In, in_map_iff. exists col. split; [done|].
    by apply list_elem_of_In. }
  apply list_elem_of_fmap in Hk as ([k zt] & -> & Hin). by exists zt.
Qed.

Lemma flat_map_ext_elem {A B} (f g : A -> list B) l :
  (∀ a, a ∈ l -> f a = g a) -> flat_map f l = flat_map g l.
Proof.
  induction l as [|a l IH]; intros H; [done|]. simpl. rewrite H, IH; [done| |].
  - intros a' Ha'. apply H. by apply list_elem_of_further.
  - apply list_elem_of_here.
Qed.

Lemma imap_Forall2 {A B} (l l' : list A) : ∀ f g : nat -> A -> B,
  Forall2 (fun a a' => ∀ i, f i a = g i a') l l' -> imap f l = imap g l'.
Proof.
  intros f g H. revert f g H. intros f g H.
  revert f g H. induction l as [|a l IH] in l' |- *; intros f g H.
  - by inversion H.
  - inversion H as [|? a' ? l1 Ha Hl]; subst. cbn [imap]. rewrite Ha. f_equal.
    apply IH. eapply Forall2_impl; [exact Hl|]. intros x y Hxy i. apply Hxy.
Qed.

Lemma map_result_Forall2 {A B} (f : A -> result B) l l' :
  Forall2 (fun a a' => f a = f a') l l' -> map_result f l = map_result f l'.
Proof. induction 1 as [|a a' l l' Ha _ IH]; [done|]. simpl. by rewrite Ha, IH. Qed.

Lemma row_issues_ext s props props' :
  (∀ col, col ∈ schema s ->
     get_own (VObj Plain props) (header_of col)
     = get_own (VObj Plain props') (header_of col)) ->
  row_issues (import_shape s) (VObj Plain props)
  = row_issues (import_shape s) (VObj Plain props').
Proof.
  intros H. unfold row_issues. apply flat_map_ext_elem. intros [h zt] Hin.
  apply import_shape_elem in Hin as (col & Hcol & <- & _). cbn [fst snd].
  by rewrite (H col Hcol).
Qed.

Lemma decoded_row_ext s props props' col :
  (∀ col, col ∈ schema s ->
     get_own (VObj Plain props) (header_of col)
     = get_own (VObj Plain props') (header_of col)) ->
  col ∈ schema s ->
  row_get (p_value (z_object_run (import_shape s) (VObj Plain props))) (header_of col)
  = row_get (p_value (z_object_run (import_shape s) (VObj Plain props'))) (header_of col).
Proof.
  intros H Hcol. destruct (import_shape_key s col Hcol) as [zt Hzt].
  pose proof (from_entries_NoDup
                (map (fun e : MetaEntry => (e.1.1, e.2)) (schema s))) as Hnd.
  fold (import_shape s) in Hnd.
  rewrite (z_object_run_value _ props _ zt Hnd Hzt).
  rewrite (z_object_run_value _ props' _ zt Hnd Hzt).
  do 2 f_equal. apply (H col Hcol).
Qed.

(** X16: past the tokenizer, [import] reads a row at the headers of the
    schema and nowhere else: two texts without tokenizer errors whose rows
    agree at those headers give the same result, whatever other columns
    either holds. *)
Theorem import_reads_schema_headers tokenize s csv csv' :
  header (import_config (opts s)) = true ->
  errors (Papa_parse tokenize csv (import_config (opts s))) = [] ->
  errors (Papa_parse tokenize csv' (import_config (opts s))) = [] ->
  Forall2 (fun row row' =>
             ∀ col, col ∈ schema s ->
               get_own row (header_of col) = get_own row' (header_of col))
          (data (Papa_parse tokenize csv (import_config (opts s))))
          (data (Papa_parse tokenize csv' (import_config (opts s)))) ->
  import tokenize s csv = import tokenize s csv'.
Proof.
  intros Hhdr Herr Herr' Hrows. rewrite !import_unfold by done.
  pose proof (Papa_parse_plain tokenize csv _ Hhdr) as Hplain.
  pose proof (Papa_parse_plain tokenize csv' _ Hhdr) as Hplain'.
  revert Hrows Hplain Hplain'.
  generalize (data (Papa_parse tokenize csv (import_config (opts s)))).
  generalize (data (Papa_parse tokenize csv' (import_config (opts s)))).
  intros rows' rows Hrows Hplain Hplain'.
  assert (Forall2 (fun row row' =>
                     ∃ props props', row = VObj Plain props ∧ row' = VObj Plain props'
                       ∧ ∀ col, col ∈ schema s ->
                           get_own (VObj Plain props) (header_of col)
                           = get_own (VObj Plain props') (header_of col))
                  rows rows') as Hboth.
  { apply Forall2_same_length_lookup. split; [by eapply Forall2_length|].
    intros i row row' Hi Hi'.
    rewrite Forall_lookup in Hplain, Hplain'.
    destruct (Hplain _ _ Hi) as [props ->]. destruct (Hplain' _ _ Hi') as [props' ->].
    exists props, props'. split_and!; [done|done|].
    rewrite Forall2_lookup in Hrows. specialize (Hrows i).
    rewrite Hi, Hi' in Hrows. by inversion Hrows. }
  unfold z_decode_rows. cbv zeta.
  rewrite !z_array_run_issues by done.
  assert (validation_issues (import_shape s) rows
          = validation_issues (import_shape s) rows') as <-.
  { unfold validation_issues. f_equal. apply imap_Forall2.
    eapply Forall2_impl; [exact Hboth|].
    intros row row' (props & props' & -> & -> & H) i. simpl.
    by rewrite (row_issues_ext s props props'). }
  destruct (validation_issues (import_shape s) rows); [|done]. simpl.
  unfold z_array_run. rewrite !z_array_run_from_value.
  apply map_result_Forall2.
  change (map ?f ?l) with (f <$> l). apply Forall2_fmap.
  eapply Forall2_impl; [exact Hboth|].
  intros row row' (props & props' & -> & -> & H). simpl.
  apply build_object_ext. apply Forall_forall. intros col Hcol.
  by apply decoded_row_ext.
Qed.

Lemma import_reads_schema_headers_witness :
  import Reference.tokenize Reference.scores Cases.wider_csv
  = import Reference.tokenize Reference.scores ("ID,Score" ++ LF ++ "101,95").
Proof.
  apply (import_reads_schema_headers Reference.tokenize Reference.scores
           Cases.wider_csv ("ID,Score" ++ LF ++ "101,95")).
  - reflexivity.
  - vm_compute. reflexivity.
  - vm_compute. reflexivity.
  - vm_compute. constructor; [|constructor].
    intros col Hcol.
    apply elem_of_cons in Hcol as [->|Hcol]; [reflexivity|].
    apply elem_of_cons in Hcol as [->|Hcol]; [reflexivity|].
    by apply elem_of_nil in Hcol.
Defined.

(** ** Two columns under one header *)

Lemma retype_fresh h zt sh : h ∉ sh.*1 -> retype h zt sh = sh.
Proof.
  induction sh as [|[k z] sh IH]; [done|]. intros Hh. cbn [retype map fst].
  apply not_elem_of_cons in Hh as [Hne Hh]. cbn [fst] in Hne.
  destruct (decide (k = h)) as [->|_]; [done|]. f_equal. by apply IH.
Qed.

Lemma retype_shape_set h z0 sh k z :
  retype h z0 (shape_set sh k z)
  = shape_set (retype h z0 sh) k (if decide (k = h) then z0 else z).
Proof.
  induction sh as [|[k' z'] sh IH].
  - cbn [shape_set retype map fst]. by destruct (decide (k = h)).
  - cbn [shape_set retype map fst].
    destruct (String.eqb_spec k' k) as [->|Hne].
    + cbn [map fst]. destruct (decide (k = h)); cbn [shape_set];
        by rewrite String.eqb_refl.
    + cbn [map fst]. fold (retype h z0 (shape_set sh k z)). rewrite IH.
      fold (retype h z0 sh).
      destruct (decide (k' = h)); cbn [shape_set];
        by destruct (String.eqb_spec k' k).
Qed.

Lemma retype_fold h z0 entries : ∀ sh,
  retype h z0 (fold_left (fun sh e => shape_set sh e.1 e.2) entries sh)
  = fold_left (fun sh e => shape_set sh e.1 e.2)
      (map (fun e : string * ZodType => (e.1, if decide (e.1 = h) then z0 else e.2))
         entries)
      (retype h z0 sh).
Proof.
  induction entries as [|e entries IH]; intros sh; [done|].
  cbn [fold_left map]. by rewrite IH, retype_shape_set.
Qed.

Lemma shape_set_retype sh h z :
  NoDup sh.*1 -> h ∈ sh.*1 -> shape_set sh h z = retype h z sh.
Proof.
  induction sh as [|[k z'] sh IH]; [by intros _ ?%elem_of_nil|].
  intros [Hk Hnd]%NoDup_cons Hin. cbn [shape_set retype map fst].
  destruct (String.eqb_spec k h) as [->|Hne].
  - rewrite decide_True by done. f_equal. symmetry. by apply retype_fresh.
  - rewrite decide_False by done. f_equal. apply IH; [done|].
    by apply elem_of_cons in Hin as [?|?].
Qed.

Lemma from_entries_shadowed h z1 z1' z2 pre mid post :
  from_entries (pre ++ (h, z1) :: mid ++ (h, z2) :: post)%list
  = from_entries (pre ++ (h, z1') :: mid ++ (h, z2) :: post)%list.
Proof.
  assert (∀ z, from_entries (pre ++ (h, z) :: mid ++ (h, z2) :: post)%list
               = fold_left (fun sh e => shape_set sh e.1 e.2) post
                   (retype h z2 (from_entries (pre ++ (h, z) :: mid)%list))) as H.
  { intros z. unfold from_entries.
    replace (pre ++ (h, z) :: mid ++ (h, z2) :: post)%list
      with ((pre ++ (h, z) :: mid) ++ (h, z2) :: post)%list
      by by rewrite <- app_assoc.
    rewrite fold_left_app. cbn [fold_left fst snd]. f_equal.
    apply shape_set_retype; [apply from_entries_NoDup|].
    apply from_entries_key. rewrite fmap_app, elem_of_app. right.
    apply list_elem_of_here. }
  rewrite (H z1), (H z1'). f_equal. unfold from_entries.
  rewrite !retype_fold, !map_app. cbn [map fst snd].
  by rewrite !decide_True by done.
Qed.

Lemma map_result_ext {A B} (f g : A -> result B) l :
  (∀ a, f a = g a) -> map_result f l = map_result g l.
Proof. intros H. induction l as [|a l IH]; [done|]. simpl. by rewrite H, IH. Qed.

Lemma write_columns_headers row sch : ∀ sch' acc,
  map fst sch = map fst sch' ->
  write_columns row acc sch = write_columns row acc sch'.
Proof.
  induction sch as [|col sch IH]; intros [|col' sch'] acc Hfst; try done.
  injection Hfst as Hcol Hrest. cbn [write_columns foldl].
  rewrite Hcol. apply IH. exact Hrest.
Qed.

(** X17: of two columns with one header only the later one's type
    validates and decodes the column of the text, for both: the type of the
    earlier column is never run, and [import] gives the same result whatever
    it is. *)
Theorem import_shadowed_type tokenize s s' csv pre col zt' mid col2 post :
  schema s = (pre ++ col :: mid ++ col2 :: post)%list ->
  header_of col2 = header_of col ->
  schema s' = (pre ++ with_type col zt' :: mid ++ col2 :: post)%list ->
  opts s' = opts s ->
  import tokenize s' csv = import tokenize s csv.
Proof.
  intros Hs Hh Hs' Ho. unfold import. rewrite Ho.
  assert (from_entries (map (fun e : MetaEntry => (e.1.1, e.2)) (schema s'))
          = from_entries (map (fun e : MetaEntry => (e.1.1, e.2)) (schema s))) as ->.
  { rewrite Hs, Hs', !map_app. cbn [map]. rewrite !map_app. cbn [map].
    unfold header_of in Hh. rewrite Hh. cbn [with_type fst snd].
    apply from_entries_shadowed. }
  destruct (0 <? length (errors (Papa_parse tokenize csv (import_config (opts s)))))%nat;
    [done|].
  destruct (z_decode_rows _ _) as [dec|ex]; [|done]. simpl.
  apply map_result_ext. intros d. rewrite !build_object_write.
  apply write_columns_headers. rewrite Hs, Hs', !map_app. cbn [map].
  rewrite !map_app. by destruct col as [[h kp] zt].
Qed.

Lemma import_shadowed_type_witness :
  import Reference.tokenize
    {| schema := [with_type ("N", "first", Reference.z_int) Reference.z_string;
                  ("N", "second", Reference.z_string)];
       opts := no_options |}
    Cases.twice_csv
  = import Reference.tokenize Cases.twice Cases.twice_csv.
Proof.
  apply (import_shadowed_type Reference.tokenize Cases.twice _ Cases.twice_csv
           [] ("N", "first", Reference.z_int) Reference.z_string []
           ("N", "second", Reference.z_string) []).
  - reflexivity.
  - reflexivity.
  - reflexivity.
  - reflexivity.
Defined.

(** ** What reaches the types, and rows of the wrong length *)

Lemma insert_all_value (l : list (string * value)) k v : ∀ m : gmap string value,
  fold_left (fun row fc => <[fc.1 := fc.2]> row) l m !! k = Some v ->
  (k, v) ∈ l ∨ m !! k = Some v.
Proof.
  induction l as [|[k' v'] l IH]; intros m; simpl; [by right|].
  intros [Hin|Hm]%IH; [left; by apply list_elem_of_further|].
  apply lookup_insert_Some in Hm as [[<- <-]|[_ Hm]]; [|by right].
  left. apply list_elem_of_here.
Qed.

Lemma trim_or_undefined_cases c :
  trim_or_undefined c = VUndef
  ∨ ∃ t, trim_or_undefined c = VStr t ∧ t ≠ "" ∧ JsString.trim t = t.
Proof.
  unfold trim_or_undefined. cbn [truthy].
  destruct (String.eqb_spec (JsString.trim c) "") as [Heq|Hne]; [by left|].
  right. exists (JsString.trim c). split_and!; [done|done|apply trim_idem].
Qed.

(** X18: under the library's settings no column's type ever sees an empty or
    padded text: every cell of every data row reaches validation either as
    [undefined] or as a non-empty string that [trim] leaves as it is, with
    no white space, of one byte or more, at either end. *)
Theorem import_cells_trimmed tokenize s csv :
  library_hooks (opts s) ->
  Forall (fun row =>
            ∀ h, h ≠ "__parsed_extra" ->
              get_own row h = VUndef
              ∨ ∃ t, get_own row h = VStr t ∧ t ≠ "" ∧ JsString.trim t = t)
         (data (Papa_parse tokenize csv (import_config (opts s)))).
Proof.
  intros (Hhdr & _ & _ & Htr)%import_config_hooks.
  destruct (Papa_parse_header tokenize csv _ Hhdr) as [Hdata _]. cbv zeta in Hdata.
  rewrite Hdata. apply Forall_forall.
  intros row (cells & <- & _)%list_elem_of_In%in_map_iff h Hh.
  unfold process_row. rewrite Hhdr. cbn [get_own].
  assert (∀ m : gmap string value,
            (if (length
                   (fill_header_fields (transformHeader (import_config (opts s)))
                      (skip_blank_lines (skipEmptyLines (import_config (opts s)))
                         (raw_data (tokenize (import_config (opts s)) csv))))
                 <? length (map (apply_transform (import_config (opts s))) cells))%nat
             then <["__parsed_extra" :=
                      array_of
                        (drop
                           (length
                              (fill_header_fields
                                 (transformHeader (import_config (opts s)))
                                 (skip_blank_lines
                                    (skipEmptyLines (import_config (opts s)))
                                    (raw_data (tokenize (import_config (opts s)) csv)))))
                           (map (apply_transform (import_config (opts s))) cells))]> m
             else m) !! h = m !! h) as ->.
  { intros m. destruct (_ <? _)%nat; [by rewrite lookup_insert_ne | done]. }
  destruct (fold_left _ _ _ !! h) as [v|] eqn:Hv; [|by left]. simpl.
  apply insert_all_value in Hv as [Hin|Hempty]; [|by rewrite lookup_empty in Hempty].
  apply elem_of_zip_r in Hin.
  apply list_elem_of_In, in_map_iff in Hin as (c & <- & _).
  unfold apply_transform. rewrite Htr. apply trim_or_undefined_cases.
Qed.

Lemma import_cells_trimmed_witness :
  Forall (fun row =>
            ∀ h, h ≠ "__parsed_extra" ->
              get_own row h = VUndef
              ∨ ∃ t, get_own row h = VStr t ∧ t ≠ "" ∧ JsString.trim t = t)
         (data (Papa_parse Reference.tokenize Reference.blank_score_csv
                  (import_config (opts Reference.scores)))).
Proof.
  apply (import_cells_trimmed Reference.tokenize Reference.scores
           Reference.blank_score_csv).
  by vm_compute.
Defined.

Lemma field_mismatch_row n i cells :
  length cells ≠ n -> ∃ e, e ∈ field_mismatch n i cells ∧ err_row e = Some i.
Proof.
  intros Hlen. unfold field_mismatch.
  destruct (Nat.ltb_spec n (length cells)).
  - eexists. split; [apply list_elem_of_here | done].
  - destruct (Nat.ltb_spec (length cells) n); [|lia].
    eexists. split; [apply list_elem_of_here | done].
Qed.

(** X19: in header mode a data row whose number of cells differs from the
    number of header fields is an error of the tokenizer: [import] throws
    the aggregate error, whatever the schema and whatever the other rows
    hold, and validates nothing. *)
Theorem import_ragged_row tokenize s csv i cells :
  header (import_config (opts s)) = true ->
  tail (skip_blank_lines (skipEmptyLines (import_config (opts s)))
          (raw_data (tokenize (import_config (opts s)) csv))) !! i = Some cells ->
  length cells
  ≠ length (fill_header_fields (transformHeader (import_config (opts s)))
              (skip_blank_lines (skipEmptyLines (import_config (opts s)))
                 (raw_data (tokenize (import_config (opts s)) csv)))) ->
  import tokenize s csv
  = Throw (AggregateError
             (errors (Papa_parse tokenize csv (import_config (opts s))))
             (meta (Papa_parse tokenize csv (import_config (opts s)))))
  ∧ ∃ e, e ∈ errors (Papa_parse tokenize csv (import_config (opts s)))
         ∧ err_row e = Some i.
Proof.
  intros Hhdr Hcells Hlen.
  destruct (Papa_parse_header tokenize csv _ Hhdr) as [_ Herrs]. cbv zeta in Herrs.
  assert (∃ e, e ∈ errors (Papa_parse tokenize csv (import_config (opts s)))
               ∧ err_row e = Some i) as (e & He & Hrow).
  { destruct (field_mismatch_row _ i cells Hlen) as (e & He & Hrow).
    exists e. split; [|done]. rewrite Herrs. apply elem_of_app. right.
    apply list_elem_of_In, in_concat. eexists. split; [|apply list_elem_of_In, He].
    apply list_elem_of_In. by apply elem_of_lookup_imap_2. }
  split; [|eauto]. unfold import.
  destruct (errors (Papa_parse tokenize csv (import_config (opts s)))); [|done].
  by apply elem_of_nil in He.
Qed.

Lemma import_ragged_row_witness :
  import Reference.tokenize Reference.scores Reference.ragged_invalid_csv
  = Throw (AggregateError
             (errors (Papa_parse Reference.tokenize Reference.ragged_invalid_csv
                        (import_config (opts Reference.scores))))
             (meta (Papa_parse Reference.tokenize Reference.ragged_invalid_csv
                      (import_config (opts Reference.scores))))).
Proof.
  apply (import_ragged_row Reference.tokenize Reference.scores
           Reference.ragged_invalid_csv 0 ["101"; "nan"; "extra"]).
  - reflexivity.
  - vm_compute. reflexivity.
  - vm_compute. lia.
Defined.
